(** * when-sourcebuffer-ready: a model of [src/index.js]

    [execWhenSourceBufferReady(sourceBuffer, callback, onWarning)] runs
    [callback] at once when [sourceBuffer.updating] is [false] and nothing is
    queued, and otherwise queues it; an ['updateend'] listener drains the
    queue.  The module keeps one array of callbacks per [SourceBuffer] in the
    [WeakMap] [queueMap].

    The embedding is a state-passing interpreter.  Source buffers are
    identified by a number (their object identity).  A callback is arbitrary
    JavaScript; the model gives it a name and a script of the two things the
    controller can observe it doing: writing [updating] of some buffer
    (what [appendBuffer] and friends do) and calling
    [execWhenSourceBufferReady] again.  A callback that throws is left out.

    The state carries, besides what the program has ([updating] of every
    buffer, [queueMap], the 'updateend' listeners of every buffer), a trace
    of what happened, which the program does not read; the properties are
    stated on it.  The platform's part, the dispatch of 'updateend' to the
    listeners, follows the DOM: see [dispatch]. *)

From stdpp Require Import gmap list strings.

(** ** Data *)

(** Functions that can be handed in as [onWarning]. *)
Inductive sinkfn :=
| ConsoleWarn
| UserSink (id : nat).

(** The third argument as the caller writes it. *)
Inductive jsarg :=
| Omitted
| Undefined
| Null
| Fn (f : sinkfn).

(** The value of the parameter [onWarning] inside the function body. *)
Inductive jsval :=
| VNull
| VFn (f : sinkfn).

(** A callback: a name and what it does when invoked. *)
Inductive op :=
| Op (name : nat) (body : list stmt)
with stmt :=
| SetUpdating (sb : nat) (b : bool)
| Exec (sb : nat) (callback : op) (onWarning : jsarg).

(** The closure [onSourceBufferReadyAndQueueNotEmpty] made by one call of
    [execWhenSourceBufferReady].  It captures [sourceBuffer], [onWarning]
    and [queue]; [queue] is the array stored in [queueMap] under
    [sourceBuffer] ([queueMap.set] runs only when there is no entry, and
    nothing deletes an entry), so the buffer stands for the array too.
    [h_id] is the identity of the function object. *)
Record handler := Handler {
  h_id : nat;
  h_sb : nat;
  h_onWarning : jsval
}.

(** What an observer of a run can see, in order. *)
Inductive event :=
| EvSubmit (sb : nat) (cb : op)
| EvCall (sb : nat) (cb : op)
| EvWarn (f : sinkfn) (msg : string)
| EvAddListener (sb : nat) (h : nat)
| EvRemoveListener (sb : nat) (h : nat)
| EvTypeError (sb : nat) (h : nat).

Record state := State {
  updating : gset nat;
  queueMap : gmap nat (list op);
  listeners : gmap nat (list handler);
  next_id : nat;
  trace : list event
}.

Definition init : state := State ∅ ∅ ∅ 0 [].

(** ** The two warning texts *)

Definition warn_busy : string :=
  "sourceBuffer.updating === true, but we're supposed to be the only " +:+
  "party that can operate on the sourceBuffer. " +:+
  "Something else made it busy. " +:+
  "We'll graciously wait for the next 'updateend' event".

Definition warn_not_busy : string :=
  "Executed `callback()`, but it didn't make " +:+
  "`sourceBuffer.updating === true`" +:+ String (Ascii.ascii_of_nat 10) (
  "We'll handle it graciously, but usually " +:+
  "operations on `sourceBuffer` cause it to become busy.").

(** ** Primitive state changes *)

Definition log (e : event) (s : state) : state :=
  State (updating s) (queueMap s) (listeners s) (next_id s) (trace s ++ [e]).

Definition is_updating (sb : nat) (s : state) : bool :=
  bool_decide (sb ∈ updating s).

Definition set_updating (sb : nat) (b : bool) (s : state) : state :=
  State (if b then updating s ∪ {[sb]} else updating s ∖ {[sb]})
        (queueMap s) (listeners s) (next_id s) (trace s).

Definition set_queue (sb : nat) (q : list op) (s : state) : state :=
  State (updating s) (<[sb := q]> (queueMap s)) (listeners s) (next_id s)
        (trace s).

Definition listeners_of (sb : nat) (s : state) : list handler :=
  default [] (listeners s !! sb).

(** [sourceBuffer.addEventListener("updateend", h)] with a fresh closure. *)
Definition addEventListener (sb : nat) (w : jsval) (s : state) : state :=
  let h := Handler (next_id s) sb w in
  State (updating s) (queueMap s)
        (<[sb := listeners_of sb s ++ [h]]> (listeners s))
        (S (next_id s))
        (trace s ++ [EvAddListener sb (h_id h)]).

(** [sourceBuffer.removeEventListener("updateend", h)]. *)
Definition removeEventListener (sb : nat) (h : handler) (s : state) : state :=
  State (updating s) (queueMap s)
        (<[sb := filter (λ h', h_id h' ≠ h_id h) (listeners_of sb s)]>
           (listeners s))
        (next_id s)
        (trace s ++ [EvRemoveListener sb (h_id h)]).

(** [onWarning = console.warn]: the default applies to a missing argument
    and to [undefined], not to [null]. *)
Definition default_param (a : jsarg) : jsval :=
  match a with
  | Omitted | Undefined => VFn ConsoleWarn
  | Null => VNull
  | Fn f => VFn f
  end.

(** [onWarning?.(msg)]. *)
Definition optional_call (w : jsval) (msg : string) (s : state) : state :=
  match w with
  | VNull => s
  | VFn f => log (EvWarn f msg) s
  end.

(** ** execWhenSourceBufferReady *)

(** The body of the function, lines 37-120, with the way a callback is
    invoked left open so that callbacks can call back in. *)
Definition execWhenSourceBufferReady_with (invoke : op → state → state)
    (sb : nat) (callback : op) (arg : jsarg) (s0 : state) : state :=
  let s := log (EvSubmit sb callback) s0 in
  let onWarning := default_param arg in
  let queue := queueMap s !! sb in
  match queue with
  | Some (c :: q) => set_queue sb ((c :: q) ++ [callback]) s
  | _ =>
    if negb (is_updating sb s) then
      invoke callback (log (EvCall sb callback) s)
    else
      let s1 :=
        match queue with
        | None => set_queue sb [callback] s
        | Some q => set_queue sb (q ++ [callback]) s
        end in
      addEventListener sb onWarning s1
  end.

Fixpoint invoke (o : op) (s : state) : state :=
  match o with
  | Op _ body => fold_left (λ s a, run_stmt a s) body s
  end
with run_stmt (a : stmt) (s : state) : state :=
  match a with
  | SetUpdating sb b => set_updating sb b s
  | Exec sb cb w => execWhenSourceBufferReady_with invoke sb cb w s
  end.

Definition execWhenSourceBufferReady := execWhenSourceBufferReady_with invoke.

(** ** The 'updateend' listener *)

Fixpoint op_size (o : op) : nat :=
  match o with
  | Op _ body => S (foldr (λ a n, stmt_size a + n) 0 body)
  end
with stmt_size (a : stmt) : nat :=
  match a with
  | SetUpdating _ _ => 0
  | Exec _ cb _ => op_size cb
  end.

Definition queue_size (q : list op) : nat :=
  foldr (λ o n, op_size o + n) 0 q.

(** The [do ... while (!sourceBuffer.updating)] loop, lines 83-109.  The
    loop is not structurally recursive (a callback may push onto the queue
    it is taken from), so it takes fuel; [None] is "out of fuel" or "the
    captured array does not exist", and [drain_loop_enough] shows that
    neither happens with the fuel the listener gives it. *)
Fixpoint drain_loop (fuel : nat) (h : handler) (s : state) : option state :=
  match fuel with
  | 0 => None
  | S fuel' =>
    let sb := h_sb h in
    match queueMap s !! sb with
    | None => None
    | Some [] =>
      (* [queue.shift()] is [undefined]; calling it throws *)
      Some (log (EvTypeError sb (h_id h)) s)
    | Some (callback :: rest) =>
      let s1 := set_queue sb rest s in
      let s2 := invoke callback (log (EvCall sb callback) s1) in
      let s3 :=
        if negb (is_updating sb s2)
        then optional_call (h_onWarning h) warn_not_busy s2
        else s2 in
      match queueMap s3 !! sb with
      | None => None
      | Some [] => Some (removeEventListener sb h s3)
      | Some (_ :: _) =>
        if negb (is_updating sb s3) then drain_loop fuel' h s3 else Some s3
      end
    end
  end.

Definition drain_fuel (sb : nat) (s : state) : nat :=
  S (queue_size (default [] (queueMap s !! sb))).

(** Lines 68-114. *)
Definition onSourceBufferReadyAndQueueNotEmpty (h : handler) (s : state)
    : option state :=
  if is_updating (h_sb h) s then
    Some (optional_call (h_onWarning h) warn_busy s)
  else
    drain_loop (drain_fuel (h_sb h) s) h s.

(** ** The environment *)

Definition subscribed (h : handler) (s : state) : bool :=
  existsb (λ h', bool_decide (h_id h' = h_id h)) (listeners_of (h_sb h) s).

(** Firing ['updateend'] at a buffer: the listeners registered when the
    event is fired are called in the order they were added; one that has
    been removed in the meantime is skipped; an exception thrown by a
    listener is reported and does not stop the others. *)
Fixpoint dispatch (snapshot : list handler) (s : state) : option state :=
  match snapshot with
  | [] => Some s
  | h :: hs =>
    if subscribed h s
    then s' ← onSourceBufferReadyAndQueueNotEmpty h s; dispatch hs s'
    else dispatch hs s
  end.

(** What can happen to the module from outside: a call of the exported
    function, an ['updateend'] event, and [updating] changing under the
    platform's or somebody else's hand. *)
Inductive input :=
| Submit (sb : nat) (callback : op) (onWarning : jsarg)
| UpdateEnd (sb : nat)
| External (sb : nat) (b : bool).

Definition step (i : input) (s : state) : option state :=
  match i with
  | Submit sb cb w => Some (execWhenSourceBufferReady sb cb w s)
  | UpdateEnd sb => dispatch (listeners_of sb s) s
  | External sb b => Some (set_updating sb b s)
  end.

Fixpoint run (ins : list input) (s : state) : option state :=
  match ins with
  | [] => Some s
  | i :: ins' => s' ← step i s; run ins' s'
  end.

(** ** Reading a state *)

Definition queue_of (sb : nat) (s : state) : list op :=
  default [] (queueMap s !! sb).

Definition submitted (sb : nat) (t : list event) : list op :=
  omap (λ e, match e with
             | EvSubmit sb' cb => if bool_decide (sb' = sb) then Some cb else None
             | _ => None end) t.

Definition called (sb : nat) (t : list event) : list op :=
  omap (λ e, match e with
             | EvCall sb' cb => if bool_decide (sb' = sb) then Some cb else None
             | _ => None end) t.

Definition warnings (t : list event) : list (sinkfn * string) :=
  omap (λ e, match e with EvWarn f m => Some (f, m) | _ => None end) t.

(** A state is reachable when some sequence of inputs leads to it from
    the state of a freshly loaded module. *)
Definition reachable (s : state) : Prop := ∃ ins, run ins init = Some s.

(** ** Properties of states and of runs *)

(** The state changes a callback, or a call of the exported function, is
    made of. *)
Inductive cb_atomic : state → state → Prop :=
| at_set s sb b :
    cb_atomic s (set_updating sb b s)
| at_push s sb cb c q :
    queueMap s !! sb = Some (c :: q) →
    cb_atomic s (set_queue sb ((c :: q) ++ [cb]) (log (EvSubmit sb cb) s))
| at_now s sb cb :
    queue_of sb s = [] → is_updating sb s = false →
    cb_atomic s (log (EvCall sb cb) (log (EvSubmit sb cb) s))
| at_defer s sb cb w :
    queue_of sb s = [] → is_updating sb s = true →
    cb_atomic s (addEventListener sb w
                   (set_queue sb [cb] (log (EvSubmit sb cb) s))).

(** The state changes of the whole module: those above and what the
    listener adds. *)
Inductive atomic : state → state → Prop :=
| at_cb s s' :
    cb_atomic s s' → atomic s s'
| at_shift s sb cb rest :
    queueMap s !! sb = Some (cb :: rest) →
    atomic s (log (EvCall sb cb) (set_queue sb rest s))
| at_warn s f msg :
    atomic s (log (EvWarn f msg) s)
| at_remove s h :
    queueMap s !! h_sb h = Some [] →
    atomic s (removeEventListener (h_sb h) h s)
| at_error s h :
    queueMap s !! h_sb h = Some [] →
    atomic s (log (EvTypeError (h_sb h) (h_id h)) s).

(** The state after the callback taken from the queue has run and the
    check of line 89 has been made. *)
Definition after_callback (h : handler) (callback : op) (rest : list op)
    (s : state) : state :=
  let sb := h_sb h in
  let s2 := invoke callback (log (EvCall sb callback) (set_queue sb rest s)) in
  if negb (is_updating sb s2)
  then optional_call (h_onWarning h) warn_not_busy s2
  else s2.

(** First in, first out: what has been submitted for a buffer is what has
    been called for it followed by what is still queued. *)
Definition fifo (s : state) : Prop :=
  ∀ sb, submitted sb (trace s) = called sb (trace s) ++ queue_of sb s.

(** A listener is registered on the buffer it was made for, and the array
    it captured exists. *)
Definition listeners_ok (s : state) : Prop :=
  ∀ sb h, h ∈ listeners_of sb s → h_sb h = sb ∧ is_Some (queueMap s !! sb).

(** [never_busies sb o]: nothing [o] does, itself or through the callbacks
    it submits, sets [updating] of [sb] to [true]. *)
Fixpoint never_busies (sb : nat) (o : op) : bool :=
  match o with
  | Op _ body => forallb (stmt_never_busies sb) body
  end
with stmt_never_busies (sb : nat) (a : stmt) : bool :=
  match a with
  | SetUpdating sb' b => negb (b && bool_decide (sb' = sb))
  | Exec _ cb _ => never_busies sb cb
  end.

(** What such callbacks keep true of the buffer. *)
Record stays_free (sb : nat) (s0 s : state) : Prop := StaysFree {
  sf_updating : is_updating sb s = false;
  sf_listeners : listeners_of sb s = listeners_of sb s0;
  sf_queue : Forall (λ o, never_busies sb o = true) (queue_of sb s);
  sf_absent : queueMap s0 !! sb = None → queueMap s !! sb = None
}.

(** A callback that does not call [execWhenSourceBufferReady] itself. *)
Definition submits_nothing (o : op) : bool :=
  match o with
  | Op _ body =>
    forallb (λ a, match a with SetUpdating _ _ => true | Exec _ _ _ => false end)
            body
  end.

(** [adds P s s']: from [s] to [s'] the trace has grown by events that all
    satisfy [P]. *)
Definition adds (P : event → Prop) (s s' : state) : Prop :=
  ∃ t, trace s' = trace s ++ t ∧ Forall P t.

Definition not_a_warning (e : event) : Prop :=
  match e with EvWarn _ _ => False | _ => True end.

(** The warnings one listener emits go to its own sink. *)
Definition warns_only (w : jsval) (e : event) : Prop :=
  match e with EvWarn f _ => w = VFn f | _ => True end.


(** An input whose callback, if it has one, submits nothing. *)
Definition plain_input (i : input) : Prop :=
  match i with
  | Submit _ cb _ => submits_nothing cb = true
  | _ => True
  end.

(** Each buffer has a listener exactly when its queue is not empty, and
    then only one. *)
Definition subscription_inv (s : state) : Prop :=
  ∀ sb,
    Forall (λ o, submits_nothing o = true) (queue_of sb s) ∧
    ((queue_of sb s = [] ∧ listeners_of sb s = []) ∨
     (queue_of sb s ≠ [] ∧ ∃ h, listeners_of sb s = [h] ∧ h_sb h = sb)).

(** The listener has never found its queue empty. *)
Definition not_a_type_error (e : event) : Prop :=
  match e with EvTypeError _ _ => False | _ => True end.

Definition no_type_error (s : state) : Prop :=
  Forall not_a_type_error (trace s).

(** ** Callbacks, inputs and states used as examples *)

(** Three callbacks that make buffer 0 busy, as [appendBuffer] does. *)
Definition opA : op := Op 1 [SetUpdating 0 true].
Definition opB : op := Op 2 [SetUpdating 0 true].
Definition opC : op := Op 3 [SetUpdating 0 true].

(** Callbacks that leave every buffer as it is. *)
Definition quiet (name : nat) : op := Op name [].

(** Buffer 0 is busy; A, B and C are submitted; each time the buffer
    becomes free the platform fires 'updateend'. *)
Definition abc_inputs : list input :=
  [External 0 true;
   Submit 0 opA Omitted; Submit 0 opB Omitted; Submit 0 opC Omitted;
   External 0 false; UpdateEnd 0;
   External 0 false; UpdateEnd 0;
   External 0 false; UpdateEnd 0;
   External 0 false].

Definition abc_final : state := default init (run abc_inputs init).

(** A buffer that is busy, with two callbacks queued. *)
Definition queued_state : state :=
  default init (run [External 0 true; Submit 0 opA Omitted;
                     Submit 0 opB Null] init).

(** The listener made by the first call that queues its callback, when the
    call leaves [onWarning] out. *)
Definition first_listener : handler := Handler 0 0 (VFn ConsoleWarn).

(** Buffer 0 was busy when [quiet 5], which does nothing, and then [opB] were
    submitted; it is free now. *)
Definition lazy_state : state :=
  default init (run [External 0 true; Submit 0 (quiet 5) Omitted;
                     Submit 0 opB Omitted; External 0 false] init).


(** The scenario of the specification: A runs at once and makes the buffer
    busy, B is queued, the buffer becomes free, 'updateend' is fired, B runs
    and leaves the buffer free. *)
Definition scenario_inputs : list input :=
  [Submit 0 opA Omitted; Submit 0 (quiet 4) Omitted;
   External 0 false; UpdateEnd 0].

Definition scenario_final : state := default init (run scenario_inputs init).

(** Buffer 0 is free, B is queued and the first listener is registered. *)
Definition draining_state : state :=
  default init (run [Submit 0 opA Omitted; Submit 0 (quiet 4) Omitted;
                     External 0 false] init).

(** Buffer 0 is free; three callbacks that do not touch it were queued
    while it was busy. *)
Definition idle_inputs : list input :=
  [External 0 true; Submit 0 (quiet 5) Omitted; Submit 0 (quiet 6) Omitted;
   Submit 0 (quiet 7) Omitted; External 0 false].

Definition idle_state : state := default init (run idle_inputs init).

(** [opR] does what a callback that chains appends does: it starts an
    operation on buffer 0, which makes the buffer busy, and submits the next
    callback, [opS]. *)
Definition opS : op := Op 9 [SetUpdating 0 true].
Definition opR : op := Op 8 [SetUpdating 0 true; Exec 0 opS Omitted].

(** A runs at once; R is queued behind it; when A's operation has ended,
    'updateend' is fired. *)
Definition reentrant_inputs_1 : list input :=
  [Submit 0 opA Omitted; Submit 0 opR Omitted; External 0 false; UpdateEnd 0].

(** R's operation ends and 'updateend' is fired. *)
Definition reentrant_inputs_2 : list input :=
  reentrant_inputs_1 ++ [External 0 false; UpdateEnd 0].

(** S's operation ends and 'updateend' is fired. *)
Definition reentrant_inputs_3 : list input :=
  reentrant_inputs_2 ++ [External 0 false; UpdateEnd 0].

Definition reentrant_state_1 : state :=
  default init (run reentrant_inputs_1 init).
Definition reentrant_state_2 : state :=
  default init (run reentrant_inputs_2 init).
Definition reentrant_state_3 : state :=
  default init (run reentrant_inputs_3 init).

(** ** Further properties of states *)

(** No lost wake-up: a buffer with something queued has a listener. *)
Definition wakeup_inv (s : state) : Prop :=
  ∀ sb, queue_of sb s ≠ [] → listeners_of sb s ≠ [].

(** Buffer 0 is free; [quiet 5] was queued by a call that left [onWarning]
    out, [quiet 6] by a call that passed [null]. *)
Definition mixed_sinks_state : state :=
  default init (run [External 0 true; Submit 0 (quiet 5) Omitted;
                     Submit 0 (quiet 6) Null; External 0 false] init).

(** [n] times: the buffer becomes free and 'updateend' is fired. *)
Fixpoint free_rounds (sb : nat) (n : nat) : list input :=
  match n with
  | 0 => []
  | S n' => External sb false :: UpdateEnd sb :: free_rounds sb n'
  end.

(** [touches sb o]: [o], itself or through the callbacks it submits, writes
    [updating] of [sb] or submits a callback for [sb]. *)
Fixpoint touches (sb : nat) (o : op) : bool :=
  match o with
  | Op _ body => existsb (stmt_touches sb) body
  end
with stmt_touches (sb : nat) (a : stmt) : bool :=
  match a with
  | SetUpdating sb' _ => bool_decide (sb' = sb)
  | Exec sb' cb _ => bool_decide (sb' = sb) || touches sb cb
  end.

Definition input_touches (sb : nat) (i : input) : bool :=
  match i with
  | Submit sb' cb _ => bool_decide (sb' = sb) || touches sb cb
  | UpdateEnd sb' => bool_decide (sb' = sb)
  | External sb' _ => bool_decide (sb' = sb)
  end.

(** No callback queued for another buffer touches [sb]. *)
Definition others_avoid (sb : nat) (s : state) : Prop :=
  ∀ sb', sb' ≠ sb → Forall (λ o, touches sb o = false) (queue_of sb' s).

(** Everything of buffer [sb] is in [s] as it is in [s0]. *)
Record untouched (sb : nat) (s0 s : state) : Prop := Untouched {
  ut_updating : is_updating sb s = is_updating sb s0;
  ut_queue : queueMap s !! sb = queueMap s0 !! sb;
  ut_listeners : listeners s !! sb = listeners s0 !! sb;
  ut_submitted : submitted sb (trace s) = submitted sb (trace s0);
  ut_called : called sb (trace s) = called sb (trace s0);
  ut_others : others_avoid sb s
}.

Definition event_about (sb : nat) (e : event) : bool :=
  match e with
  | EvSubmit sb' _ | EvCall sb' _ => bool_decide (sb' = sb)
  | _ => false
  end.

(** A callback for buffer 1, and inputs that are about buffer 1 only. *)
Definition opD : op := Op 11 [SetUpdating 1 true].

Definition buffer_1_inputs : list input :=
  [Submit 1 opD Omitted; Submit 1 opD Null; External 1 false; UpdateEnd 1].





(** * Proofs *)

(** ** Induction on callbacks *)

Section op_induction.
Variables (P : op → Prop) (Q : stmt → Prop).
Hypothesis HOp : ∀ n body, Forall Q body → P (Op n body).
Hypothesis HSet : ∀ sb b, Q (SetUpdating sb b).
Hypothesis HExec : ∀ sb cb w, P cb → Q (Exec sb cb w).

Fixpoint op_stmt_ind (o : op) : P o :=
  match o with
  | Op n body =>
    HOp n body
      ((fix all (l : list stmt) : Forall Q l :=
          match l with
          | [] => List.Forall_nil Q
          | a :: l' => @List.Forall_cons _ Q a l' (stmt_op_ind a) (all l')
          end) body)
  end
with stmt_op_ind (a : stmt) : Q a :=
  match a with
  | SetUpdating sb b => HSet sb b
  | Exec sb cb w => HExec sb cb w (op_stmt_ind cb)
  end.
End op_induction.

(** ** What one call of the exported function can do to the state *)

Lemma is_updating_log sb e s : is_updating sb (log e s) = is_updating sb s.
Proof. reflexivity. Qed.

Lemma queue_of_log sb e s : queue_of sb (log e s) = queue_of sb s.
Proof. reflexivity. Qed.

(** The three branches of [execWhenSourceBufferReady]. *)
Lemma exec_with_push inv sb cb w s c q :
  queueMap s !! sb = Some (c :: q) →
  execWhenSourceBufferReady_with inv sb cb w s
  = set_queue sb ((c :: q) ++ [cb]) (log (EvSubmit sb cb) s).
Proof. intros H. unfold execWhenSourceBufferReady_with. simpl. by rewrite H. Qed.

Lemma exec_with_now inv sb cb w s :
  queue_of sb s = [] → is_updating sb s = false →
  execWhenSourceBufferReady_with inv sb cb w s
  = inv cb (log (EvCall sb cb) (log (EvSubmit sb cb) s)).
Proof.
  unfold queue_of, execWhenSourceBufferReady_with. simpl.
  rewrite is_updating_log. intros Hq ->.
  destruct (queueMap s !! sb) as [[|]|]; simplify_eq/=; done.
Qed.

Lemma exec_with_defer inv sb cb w s :
  queue_of sb s = [] → is_updating sb s = true →
  execWhenSourceBufferReady_with inv sb cb w s
  = addEventListener sb (default_param w)
      (set_queue sb [cb] (log (EvSubmit sb cb) s)).
Proof.
  unfold queue_of, execWhenSourceBufferReady_with. simpl.
  rewrite is_updating_log. intros Hq ->.
  destruct (queueMap s !! sb) as [[|]|]; simplify_eq/=; done.
Qed.

Lemma queue_cases sb s :
  (∃ c q, queueMap s !! sb = Some (c :: q)) ∨ queue_of sb s = [].
Proof.
  unfold queue_of. destruct (queueMap s !! sb) as [[|c q]|]; eauto.
Qed.

Lemma invoke_Op n body s :
  invoke (Op n body) s = fold_left (λ s a, run_stmt a s) body s.
Proof. reflexivity. Qed.

Lemma invoke_steps o s : rtc cb_atomic s (invoke o s).
Proof.
  revert s.
  induction o using op_stmt_ind
    with (Q := λ a, ∀ s, rtc cb_atomic s (run_stmt a s)); intros s.
  - rewrite invoke_Op. revert s.
    induction H as [|a body Ha _ IH]; intros s; simpl; [done|].
    etrans; [apply Ha | apply IH].
  - apply rtc_once, at_set.
  - simpl. destruct (queue_cases sb s) as [(c & q & Hq)|Hq].
    + rewrite (exec_with_push _ _ _ _ _ _ _ Hq). by eapply rtc_once, at_push.
    + destruct (is_updating sb s) eqn:Hu.
      * rewrite exec_with_defer by done. by apply rtc_once, at_defer.
      * rewrite exec_with_now by done.
        eapply rtc_l; [by apply at_now | apply IHo].
Qed.

Lemma exec_steps sb cb w s :
  rtc cb_atomic s (execWhenSourceBufferReady sb cb w s).
Proof. apply (invoke_steps (Op 0 [Exec sb cb w])). Qed.

Lemma cb_atomic_atomic s s' : rtc cb_atomic s s' → rtc atomic s s'.
Proof. induction 1; [done|]. eapply rtc_l; [by apply at_cb | done]. Qed.

Lemma optional_call_steps w msg s : rtc atomic s (optional_call w msg s).
Proof. destruct w; simpl; [done|]. apply rtc_once, at_warn. Qed.

Lemma drain_loop_S fuel h s callback rest :
  queueMap s !! h_sb h = Some (callback :: rest) →
  drain_loop (S fuel) h s =
    let s3 := after_callback h callback rest s in
    match queueMap s3 !! h_sb h with
    | None => None
    | Some [] => Some (removeEventListener (h_sb h) h s3)
    | Some (_ :: _) =>
      if negb (is_updating (h_sb h) s3) then drain_loop fuel h s3 else Some s3
    end.
Proof. intros H. simpl. by rewrite H. Qed.

Lemma drain_loop_empty fuel h s :
  queueMap s !! h_sb h = Some [] →
  drain_loop (S fuel) h s = Some (log (EvTypeError (h_sb h) (h_id h)) s).
Proof. intros H. simpl. by rewrite H. Qed.

Lemma after_callback_steps h cb rest s :
  queueMap s !! h_sb h = Some (cb :: rest) →
  rtc atomic s (after_callback h cb rest s).
Proof.
  intros Hq. unfold after_callback.
  eapply rtc_l; [by apply at_shift|].
  set (s1 := log _ _).
  destruct (negb _).
  - etrans; [apply cb_atomic_atomic, invoke_steps | apply optional_call_steps].
  - apply cb_atomic_atomic, invoke_steps.
Qed.

Lemma drain_loop_steps fuel h s s' :
  drain_loop fuel h s = Some s' → rtc atomic s s'.
Proof.
  revert s. induction fuel as [|fuel IH]; intros s; [done|].
  destruct (queueMap s !! h_sb h) as [[|cb rest]|] eqn:Hq.
  - rewrite drain_loop_empty by done. intros [= <-].
    by apply rtc_once, at_error.
  - rewrite (drain_loop_S _ _ _ _ _ Hq). cbv zeta.
    pose proof (after_callback_steps _ _ _ _ Hq) as Hs.
    destruct (queueMap (after_callback h cb rest s) !! h_sb h)
      as [[|c q]|] eqn:Hq3; [|destruct (negb _)|done].
    + intros [= <-]. eapply rtc_r; [done | by apply at_remove].
    + intros H. etrans; [done | by apply IH].
    + by intros [= <-].
  - simpl. by rewrite Hq.
Qed.

Lemma handler_steps h s s' :
  onSourceBufferReadyAndQueueNotEmpty h s = Some s' → rtc atomic s s'.
Proof.
  unfold onSourceBufferReadyAndQueueNotEmpty. destruct (is_updating _ _).
  - intros [= <-]. apply optional_call_steps.
  - apply drain_loop_steps.
Qed.

Lemma dispatch_steps hs s s' : dispatch hs s = Some s' → rtc atomic s s'.
Proof.
  revert s. induction hs as [|h hs IH]; intros s; simpl.
  - by intros [= <-].
  - destruct (subscribed h s); [|apply IH].
    destruct (onSourceBufferReadyAndQueueNotEmpty h s) as [s1|] eqn:H1;
      simpl; [|done].
    intros H. etrans; [by eapply handler_steps | by apply IH].
Qed.

Lemma step_steps i s s' : step i s = Some s' → rtc atomic s s'.
Proof.
  destruct i; simpl.
  - intros [= <-]. apply cb_atomic_atomic, exec_steps.
  - apply dispatch_steps.
  - intros [= <-]. apply rtc_once, at_cb, at_set.
Qed.

Lemma run_steps ins s s' : run ins s = Some s' → rtc atomic s s'.
Proof.
  revert s. induction ins as [|i ins IH]; intros s; simpl.
  - by intros [= <-].
  - destruct (step i s) as [s1|] eqn:H1; simpl; [|done].
    intros H. etrans; [by eapply step_steps | by apply IH].
Qed.

Lemma reachable_steps s : reachable s → rtc atomic init s.
Proof. intros [ins H]. by eapply run_steps. Qed.

(** ** Invariants of the atomic state changes *)

Lemma rtc_preserves {X} (R : relation X) (P : X → Prop) :
  (∀ x y, R x y → P x → P y) → ∀ x y, rtc R x y → P x → P y.
Proof. intros HR x y H. induction H; eauto. Qed.

Lemma queue_of_set_queue sb sb' q s :
  queue_of sb' (set_queue sb q s) = if decide (sb = sb') then q else queue_of sb' s.
Proof.
  unfold queue_of, set_queue. simpl. case_decide; simplify_map_eq; done.
Qed.

Lemma queue_of_Some sb s q : queueMap s !! sb = Some q → queue_of sb s = q.
Proof. unfold queue_of. by intros ->. Qed.

Lemma submitted_snoc sb t e :
  submitted sb (t ++ [e]) = submitted sb t ++
    match e with
    | EvSubmit sb' cb => if bool_decide (sb' = sb) then [cb] else []
    | _ => []
    end.
Proof.
  unfold submitted. rewrite omap_app. f_equal.
  destruct e; simpl; try done. by case_bool_decide.
Qed.

Lemma called_snoc sb t e :
  called sb (t ++ [e]) = called sb t ++
    match e with
    | EvCall sb' cb => if bool_decide (sb' = sb) then [cb] else []
    | _ => []
    end.
Proof.
  unfold called. rewrite omap_app. f_equal.
  destruct e; simpl; try done. by case_bool_decide.
Qed.

Lemma warnings_snoc t e :
  warnings (t ++ [e]) = warnings t ++
    match e with EvWarn f m => [(f, m)] | _ => [] end.
Proof. unfold warnings. rewrite omap_app. f_equal. by destruct e. Qed.

Ltac fifo_case sb sb' :=
  unfold queue_of, set_queue, log, addEventListener, removeEventListener in *;
  simpl in *; rewrite ?submitted_snoc, ?called_snoc;
  destruct (decide (sb = sb')); repeat case_bool_decide;
  simplify_map_eq; rewrite ?app_nil_r, <-?(assoc_L (++)); try done.

Lemma cb_atomic_fifo s s' : cb_atomic s s' → fifo s → fifo s'.
Proof.
  intros Hstep Hs sb'. specialize (Hs sb'). destruct Hstep.
  - done.
  - fifo_case sb sb'. by rewrite Hs, <-!(assoc_L (++)).
  - fifo_case sb sb'. by rewrite H, app_nil_r in Hs |- *; rewrite Hs.
  - fifo_case sb sb'. by rewrite H, app_nil_r in Hs; rewrite Hs.
Qed.

Lemma atomic_fifo s s' : atomic s s' → fifo s → fifo s'.
Proof.
  intros Hstep Hs. destruct Hstep as [s s' Hcb|s sb| |s h|s h].
  - by eapply cb_atomic_fifo.
  - intros sb'. specialize (Hs sb'). fifo_case sb sb'.
  - intros sb'. specialize (Hs sb'). by fifo_case sb' sb'.
  - intros sb'. specialize (Hs sb'). by fifo_case sb' sb'.
  - intros sb'. specialize (Hs sb'). by fifo_case sb' sb'.
Qed.

Lemma fifo_init : fifo init.
Proof. done. Qed.

Lemma reachable_fifo s : reachable s → fifo s.
Proof.
  intros H. eapply (rtc_preserves atomic fifo atomic_fifo);
    [by apply reachable_steps | apply fifo_init].
Qed.

(** Registry entries are never removed. *)
Lemma atomic_dom s s' : atomic s s' → dom (queueMap s) ⊆ dom (queueMap s').
Proof.
  intros [s0 s1 []| | | |]; simpl; rewrite ?dom_insert_L; set_solver.
Qed.

Lemma steps_dom s s' : rtc atomic s s' → dom (queueMap s) ⊆ dom (queueMap s').
Proof.
  induction 1 as [|s1 s2 s3 H12%atomic_dom _ IH]; set_solver.
Qed.

Lemma steps_entry s s' sb :
  rtc atomic s s' → is_Some (queueMap s !! sb) → is_Some (queueMap s' !! sb).
Proof. intros H%steps_dom. rewrite <-!elem_of_dom. set_solver. Qed.

Lemma listeners_of_add sb sb' w s :
  listeners_of sb' (addEventListener sb w s) =
    if decide (sb = sb')
    then listeners_of sb s ++ [Handler (next_id s) sb w]
    else listeners_of sb' s.
Proof.
  unfold listeners_of, addEventListener. simpl.
  case_decide; simplify_map_eq; done.
Qed.

Lemma listeners_of_remove sb sb' h s :
  listeners_of sb' (removeEventListener sb h s) =
    if decide (sb = sb')
    then filter (λ h', h_id h' ≠ h_id h) (listeners_of sb s)
    else listeners_of sb' s.
Proof.
  unfold listeners_of, removeEventListener. simpl.
  case_decide; simplify_map_eq; done.
Qed.

Lemma atomic_listeners_ok s s' : atomic s s' → listeners_ok s → listeners_ok s'.
Proof.
  intros Hstep Hs sb' h'.
  assert (∀ sb, is_Some (queueMap s !! sb) → is_Some (queueMap s' !! sb))
    as Hdom by (intros sb; by apply steps_entry, rtc_once).
  destruct Hstep as [s s' []|s sb| |s h|s h]; try (intros [? ?]%Hs; by auto).
  - rewrite listeners_of_add. case_decide as Hsb.
    + subst sb'. intros [Hin| ->%list_elem_of_singleton]%elem_of_app.
      * apply Hs in Hin as [? ?]. auto.
      * split; [done|]. simpl. rewrite lookup_insert_eq. eauto.
    + intros [? ?]%Hs; auto.
  - rewrite listeners_of_remove. case_decide.
    + subst sb'. intros [_ Hin]%list_elem_of_filter. apply Hs in Hin as [? ?]; auto.
    + intros [? ?]%Hs; auto.
Qed.

Lemma steps_listeners_ok s s' : rtc atomic s s' → listeners_ok s → listeners_ok s'.
Proof. apply rtc_preserves, atomic_listeners_ok. Qed.

Lemma listeners_ok_init : listeners_ok init.
Proof.
  intros sb h. unfold listeners_of. simpl. rewrite lookup_empty.
  by intros ?%elem_of_nil.
Qed.

Lemma subscribed_spec h s :
  subscribed h s = true ↔
  ∃ h', h' ∈ listeners_of (h_sb h) s ∧ h_id h' = h_id h.
Proof.
  unfold subscribed. rewrite existsb_exists. split.
  - intros (h' & Hin & Hid). exists h'. rewrite list_elem_of_In.
    by apply bool_decide_eq_true in Hid.
  - intros (h' & Hin & Hid). exists h'. rewrite <-list_elem_of_In.
    by rewrite bool_decide_eq_true.
Qed.

Lemma subscribed_entry h s :
  listeners_ok s → subscribed h s = true → is_Some (queueMap s !! h_sb h).
Proof.
  intros Hok (h' & Hin & _)%subscribed_spec. by apply Hok in Hin as [_ ?].
Qed.

(** ** Termination of the loop *)

Lemma queue_size_app q1 q2 : queue_size (q1 ++ q2) = queue_size q1 + queue_size q2.
Proof. induction q1 as [|o q1 IH]; simpl; [done|]. rewrite IH. lia. Qed.

Lemma invoke_size sb o s :
  queue_size (queue_of sb (invoke o s)) < queue_size (queue_of sb s) + op_size o.
Proof.
  revert s.
  induction o using op_stmt_ind
    with (Q := λ a, ∀ s, queue_size (queue_of sb (run_stmt a s))
                         ≤ queue_size (queue_of sb s) + stmt_size a); intros s.
  - rewrite invoke_Op. simpl.
    enough (queue_size (queue_of sb (fold_left (λ s a, run_stmt a s) body s))
            ≤ queue_size (queue_of sb s)
              + foldr (λ a n, stmt_size a + n) 0 body) by lia.
    revert s. induction H as [|a body Ha _ IH]; intros s; simpl; [lia|].
    specialize (IH (run_stmt a s)). specialize (Ha s). lia.
  - unfold queue_of. simpl. lia.
  - simpl. destruct (queue_cases sb0 s) as [(c & q & Hq)|Hq].
    + rewrite (exec_with_push _ _ _ _ _ _ _ Hq), queue_of_set_queue.
      case_decide; [|by rewrite queue_of_log; lia].
      subst sb0. rewrite (queue_of_Some _ _ _ Hq), queue_size_app. simpl. lia.
    + destruct (is_updating sb0 s) eqn:Hu.
      * rewrite exec_with_defer by done.
        unfold addEventListener, queue_of. simpl.
        destruct (decide (sb0 = sb)); simplify_map_eq; simpl; [lia|].
        fold (queue_of sb s). lia.
      * rewrite exec_with_now by done.
        specialize (IHo (log (EvCall sb0 o) (log (EvSubmit sb0 o) s))).
        rewrite !queue_of_log in IHo. lia.
Qed.

Lemma after_callback_size h cb rest s :
  queueMap s !! h_sb h = Some (cb :: rest) →
  queue_size (queue_of (h_sb h) (after_callback h cb rest s))
  < queue_size (queue_of (h_sb h) s).
Proof.
  intros Hq. rewrite (queue_of_Some _ _ _ Hq). unfold after_callback.
  set (s1 := log _ _).
  assert (queue_size (queue_of (h_sb h) (invoke cb s1))
          < queue_size (cb :: rest)) as Hlt.
  { pose proof (invoke_size (h_sb h) cb s1) as Hi.
    unfold s1 in Hi at 2. rewrite queue_of_log, queue_of_set_queue in Hi.
    rewrite decide_True in Hi by done. simpl. lia. }
  destruct (negb _); [|done].
  by destruct (h_onWarning h).
Qed.

Lemma drain_loop_enough fuel h s :
  is_Some (queueMap s !! h_sb h) →
  queue_size (queue_of (h_sb h) s) < fuel →
  is_Some (drain_loop fuel h s).
Proof.
  revert s. induction fuel as [|fuel IH]; intros s Hsome Hlt; [lia|].
  destruct Hsome as [[|cb rest] Hq].
  - rewrite drain_loop_empty by done. eauto.
  - rewrite (drain_loop_S _ _ _ _ _ Hq). cbv zeta.
    pose proof (after_callback_size _ _ _ _ Hq) as Hsz.
    pose proof (steps_entry _ _ (h_sb h) (after_callback_steps _ _ _ _ Hq))
      as Hent.
    destruct Hent as [q3 Hq3]; [eauto|].
    rewrite Hq3. destruct q3 as [|c q3]; [eauto|].
    destruct (negb _); [|eauto].
    apply IH; [eauto | lia].
Qed.

(** With more fuel the loop gives the same result. *)
Lemma drain_loop_more fuel fuel' h s s' :
  drain_loop fuel h s = Some s' → fuel ≤ fuel' → drain_loop fuel' h s = Some s'.
Proof.
  revert fuel' s. induction fuel as [|fuel IH]; intros fuel' s; [done|].
  intros H Hle. destruct fuel' as [|fuel']; [lia|].
  destruct (queueMap s !! h_sb h) as [[|cb rest]|] eqn:Hq.
  - rewrite drain_loop_empty in H by done. by rewrite drain_loop_empty.
  - rewrite (drain_loop_S _ _ _ _ _ Hq) in H.
    rewrite (drain_loop_S _ _ _ _ _ Hq). cbv zeta in *.
    destruct (queueMap (after_callback _ _ _ _) !! _) as [[|c q]|];
      [done| |done].
    destruct (negb _); [|done]. apply IH; [done | lia].
  - simpl in H. by rewrite Hq in H.
Qed.

Lemma handler_total h s :
  is_Some (queueMap s !! h_sb h) →
  is_Some (onSourceBufferReadyAndQueueNotEmpty h s).
Proof.
  intros Hsome. unfold onSourceBufferReadyAndQueueNotEmpty.
  destruct (is_updating _ _); [eauto|].
  apply drain_loop_enough; [done|]. unfold drain_fuel, queue_of. lia.
Qed.

Lemma dispatch_total hs s : listeners_ok s → is_Some (dispatch hs s).
Proof.
  revert s. induction hs as [|h hs IH]; intros s Hok; simpl; [eauto|].
  destruct (subscribed h s) eqn:Hsub; [|by apply IH].
  destruct (handler_total h s) as [s1 H1]; [by apply subscribed_entry|].
  rewrite H1. simpl. apply IH.
  eapply steps_listeners_ok; [by eapply handler_steps | done].
Qed.

Lemma step_total i s : listeners_ok s → is_Some (step i s).
Proof. destruct i; simpl; eauto using dispatch_total. Qed.

(** Every sequence of inputs runs to the end. *)
Lemma run_total ins : is_Some (run ins init).
Proof.
  pose proof listeners_ok_init as Hok. revert Hok. generalize init.
  induction ins as [|i ins IH]; intros s Hok; simpl; [eauto|].
  destruct (step_total i s Hok) as [s1 H1]. rewrite H1. simpl.
  apply IH. eapply steps_listeners_ok; [by eapply step_steps | done].
Qed.

(** ** Submission order *)

(** C1: for every buffer and every sequence of inputs (submissions, also
    from inside callbacks, 'updateend' events and outside changes of
    [updating]), the callbacks submitted for the buffer are, in submission
    order, the callbacks already called for it followed by the ones still in
    its queue: callbacks run in the order of their submission. *)
Theorem submission_order_preserved ins s sb :
  run ins init = Some s →
  submitted sb (trace s) = called sb (trace s) ++ queue_of sb s.
Proof. intros H. apply reachable_fifo. by exists ins. Qed.

Lemma submission_order_preserved_witness :
  run abc_inputs init = Some abc_final ∧
  submitted 0 (trace abc_final)
  = called 0 (trace abc_final) ++ queue_of 0 abc_final.
Proof.
  split; [vm_compute; reflexivity|].
  apply (submission_order_preserved abc_inputs). vm_compute. reflexivity.
Defined.

Example abc_called_in_order :
  called 0 (trace abc_final) = [opA; opB; opC] ∧ queue_of 0 abc_final = [].
Proof. vm_compute. done. Qed.

(** ** Callbacks that leave a buffer free *)

Lemma is_updating_set sb sb' b s :
  is_updating sb (set_updating sb' b s) =
    if decide (sb' = sb) then b else is_updating sb s.
Proof.
  unfold is_updating, set_updating. simpl.
  destruct b; case_decide; subst.
  - apply bool_decide_eq_true. apply elem_of_union_r, elem_of_singleton_2.
    reflexivity.
  - apply bool_decide_ext. rewrite elem_of_union, elem_of_singleton.
    intuition congruence.
  - apply bool_decide_eq_false. rewrite elem_of_difference, elem_of_singleton.
    intuition congruence.
  - apply bool_decide_ext. rewrite elem_of_difference, elem_of_singleton.
    intuition congruence.
Qed.

Lemma invoke_stays_free sb s0 o s :
  never_busies sb o = true → stays_free sb s0 s → stays_free sb s0 (invoke o s).
Proof.
  revert s.
  induction o using op_stmt_ind
    with (Q := λ a, ∀ s, stmt_never_busies sb a = true →
                         stays_free sb s0 s → stays_free sb s0 (run_stmt a s));
    intros s Hnb Hs.
  - rewrite invoke_Op. simpl in Hnb. revert s Hs.
    induction H as [|a body Ha _ IH]; intros s Hs; simpl; [done|].
    simpl in Hnb. apply andb_true_iff in Hnb as [Hnb1 Hnb2]. auto.
  - simpl in *. destruct Hs as [Hu Hl Hq Ha]. split; try done.
    rewrite is_updating_set. case_decide; [|done]. subst sb0.
    rewrite bool_decide_eq_true_2 in Hnb by done. by destruct b.
  - simpl in Hnb. simpl. destruct (queue_cases sb0 s) as [(c & q & Hq)|Hq].
    + rewrite (exec_with_push _ _ _ _ _ _ _ Hq).
      destruct Hs as [Hu Hl HF Ha]. split; try done.
      * rewrite queue_of_set_queue. case_decide; [|done]. subst sb0.
        rewrite (queue_of_Some _ _ _ Hq) in HF.
        apply Forall_app. split; [done|]. by apply Forall_singleton.
      * intros H0%Ha. simpl. destruct (decide (sb0 = sb)); simplify_map_eq; done.
    + destruct (is_updating sb0 s) eqn:Hu0.
      * rewrite exec_with_defer by done.
        destruct Hs as [Hu Hl HF Ha].
        assert (sb0 ≠ sb) by congruence.
        split.
        -- done.
        -- rewrite listeners_of_add. by rewrite decide_False.
        -- unfold queue_of, addEventListener. simpl. by simplify_map_eq.
        -- intros H0%Ha. simpl. by simplify_map_eq.
      * rewrite exec_with_now by done. apply IHo; [done|].
        by destruct Hs.
Qed.

Lemma stays_free_refl sb s :
  is_updating sb s = false →
  Forall (λ o, never_busies sb o = true) (queue_of sb s) →
  stays_free sb s s.
Proof. by split. Qed.

(** ** Submitting *)

Lemma invoke_submits_nothing o s :
  submits_nothing o = true →
  queueMap (invoke o s) = queueMap s ∧ listeners (invoke o s) = listeners s ∧
  trace (invoke o s) = trace s.
Proof.
  destruct o as [n body]. rewrite invoke_Op. simpl. revert s.
  induction body as [|a body IH]; intros s Hb; simpl; [done|].
  simpl in Hb. apply andb_true_iff in Hb as [Ha Hb].
  destruct a; [|done].
  destruct (IH (set_updating sb b s) Hb) as (H1 & H2 & H3).
  change (run_stmt (SetUpdating sb b) s) with (set_updating sb b s).
  by rewrite H1, H2, H3.
Qed.

(** C6: when the buffer's queue is not empty, the call appends the callback
    to the end of the queue and returns: the callback is not called, and
    nothing else changes but the record of the submission; the value of
    [updating] plays no part. *)
Theorem submit_appends_to_nonempty_queue sb cb w s c q :
  queueMap s !! sb = Some (c :: q) →
  let s' := execWhenSourceBufferReady sb cb w s in
  queueMap s' = <[sb := c :: q ++ [cb]]> (queueMap s) ∧
  trace s' = trace s ++ [EvSubmit sb cb] ∧
  (∀ sb', called sb' (trace s') = called sb' (trace s)) ∧
  updating s' = updating s ∧ listeners s' = listeners s.
Proof.
  intros Hq. cbv zeta. unfold execWhenSourceBufferReady.
  rewrite (exec_with_push _ _ _ _ _ _ _ Hq). simpl.
  repeat split. intros sb'. by rewrite called_snoc, app_nil_r.
Qed.

Lemma submit_appends_to_nonempty_queue_witness :
  queueMap queued_state !! 0 = Some [opA; opB] ∧
  queue_of 0 (execWhenSourceBufferReady 0 opC Omitted
                (set_updating 0 false queued_state)) = [opA; opB; opC].
Proof.
  split; [vm_compute; reflexivity|].
  pose proof (submit_appends_to_nonempty_queue 0 opC Omitted
                (set_updating 0 false queued_state) opA [opB]) as H.
  destruct H as (Hq & _); [vm_compute; reflexivity|].
  unfold queue_of. rewrite Hq. vm_compute. reflexivity.
Defined.

Lemma run_app ins1 ins2 s :
  run (ins1 ++ ins2) s = s1 ← run ins1 s; run ins2 s1.
Proof.
  revert s. induction ins1 as [|i ins1 IH]; intros s; simpl; [done|].
  destruct (step i s); simpl; [apply IH | done].
Qed.

Lemma reachable_run ins s s' : reachable s → run ins s = Some s' → reachable s'.
Proof.
  intros [ins0 H0] H. exists (ins0 ++ ins). rewrite run_app, H0. done.
Qed.

Lemma exec_stays_free sb s0 sb' cb w s :
  never_busies sb cb = true → stays_free sb s0 s →
  stays_free sb s0 (execWhenSourceBufferReady sb' cb w s).
Proof.
  intros Hnb. apply (invoke_stays_free sb s0 (Op 0 [Exec sb' cb w])).
  simpl. by rewrite Hnb.
Qed.

Lemma queue_of_nil sb s :
  queue_of sb s = [] ↔ queueMap s !! sb = None ∨ queueMap s !! sb = Some [].
Proof.
  unfold queue_of.
  destruct (queueMap s !! sb) as [[|c q]|]; simpl; intuition congruence.
Qed.

Lemma run_submits_stay_free sb s0 (cbs : list (op * jsarg)) s :
  Forall (λ c, never_busies sb c.1 = true) cbs → stays_free sb s0 s →
  ∃ s', run (map (λ c, Submit sb c.1 c.2) cbs) s = Some s' ∧
        stays_free sb s0 s'.
Proof.
  intros Hcbs. revert s.
  induction Hcbs as [|[cb w] cbs Hcb _ IH]; intros s Hsf; simpl; [eauto|].
  apply IH. by apply exec_stays_free.
Qed.

(** C3: when [updating] of the buffer is false and its queue is absent or
    empty, the call does nothing but invoke the callback, synchronously;
    with a callback that does not submit anything itself the registry and the
    listeners are as they were.  Repeated submissions for a buffer that no
    callback ever makes busy never create an entry for it, and everything
    submitted has been called when the call returns. *)
Theorem immediate_execution_on_free_buffer sb s :
  is_updating sb s = false →
  queueMap s !! sb = None ∨ queueMap s !! sb = Some [] →
  (∀ cb w,
     let s' := execWhenSourceBufferReady sb cb w s in
     s' = invoke cb (log (EvCall sb cb) (log (EvSubmit sb cb) s)) ∧
     (submits_nothing cb = true →
      queueMap s' = queueMap s ∧ listeners s' = listeners s ∧
      trace s' = trace s ++ [EvSubmit sb cb; EvCall sb cb])) ∧
  (∀ cbs : list (op * jsarg),
     reachable s → queueMap s !! sb = None →
     Forall (λ c, never_busies sb c.1 = true) cbs →
     ∃ s', run (map (λ c, Submit sb c.1 c.2) cbs) s = Some s' ∧
           queueMap s' !! sb = None ∧
           called sb (trace s') = submitted sb (trace s')).
Proof.
  intros Hu Hq. split.
  - intros cb w. cbv zeta. unfold execWhenSourceBufferReady.
    rewrite exec_with_now by (by rewrite ?queue_of_nil). split; [done|].
    intros Hflat.
    destruct (invoke_submits_nothing cb
                (log (EvCall sb cb) (log (EvSubmit sb cb) s)) Hflat)
      as (-> & -> & ->).
    simpl. by rewrite <-(assoc_L (++)).
  - intros cbs Hreach Hnone Hcbs.
    assert (stays_free sb s s) as Hsf.
    { apply stays_free_refl; [done|]. unfold queue_of. by rewrite Hnone. }
    destruct (run_submits_stay_free sb s cbs s Hcbs Hsf) as (s' & Hrun & Hsf').
    exists s'. split; [done|]. split; [by apply Hsf'|].
    pose proof (reachable_fifo _ (reachable_run _ _ _ Hreach Hrun) sb) as Hf.
    unfold queue_of in Hf. rewrite (sf_absent _ _ _ Hsf' Hnone) in Hf.
    simpl in Hf. by rewrite app_nil_r in Hf.
Qed.

Lemma immediate_execution_on_free_buffer_witness :
  called 0 (trace (execWhenSourceBufferReady 0 opA Omitted init)) = [opA] ∧
  queueMap (execWhenSourceBufferReady 0 opA Omitted init) = ∅.
Proof.
  destruct (immediate_execution_on_free_buffer 0 init) as [H _].
  - vm_compute. reflexivity.
  - left. vm_compute. reflexivity.
  - destruct (H opA Omitted) as [_ Hflat].
    destruct Hflat as (Hq & _ & Ht); [reflexivity|].
    rewrite Hq, Ht. split; reflexivity.
Defined.

(** ** The listener *)

Lemma atomic_trace s s' : atomic s s' → trace s `prefix_of` trace s'.
Proof.
  intros [s0 s1 []| | | |]; simpl; rewrite <-?(assoc_L (++));
    first [reflexivity | by apply prefix_app_r].
Qed.

Lemma steps_trace s s' : rtc atomic s s' → trace s `prefix_of` trace s'.
Proof.
  induction 1 as [|s1 s2 s3 H12%atomic_trace _ IH]; [done | by etrans].
Qed.

Lemma cb_atomic_warnings s s' :
  cb_atomic s s' → warnings (trace s') = warnings (trace s).
Proof.
  intros []; simpl; rewrite ?warnings_snoc; simpl; by rewrite ?app_nil_r.
Qed.

Lemma invoke_warnings o s : warnings (trace (invoke o s)) = warnings (trace s).
Proof.
  pose proof (invoke_steps o s) as H.
  induction H as [|s1 s2 s3 H12%cb_atomic_warnings _ IH]; congruence.
Qed.

Lemma cb_atomic_subscribed h s s' :
  cb_atomic s s' → subscribed h s = true → subscribed h s' = true.
Proof.
  intros Hstep. rewrite !subscribed_spec. intros (h' & Hin & Hid).
  exists h'. split; [|done]. destruct Hstep; try done.
  rewrite listeners_of_add. case_decide as Hsb; [|done].
  subst sb. apply elem_of_app. by left.
Qed.

Lemma invoke_subscribed h o s :
  subscribed h s = true → subscribed h (invoke o s) = true.
Proof.
  pose proof (invoke_steps o s) as H.
  induction H as [|s1 s2 s3 H12 _ IH]; eauto using cb_atomic_subscribed.
Qed.

Lemma subscribed_optional_call h w msg s :
  subscribed h (optional_call w msg s) = subscribed h s.
Proof. by destruct w. Qed.

Lemma after_callback_subscribed h h' cb rest s :
  subscribed h' s = true → subscribed h' (after_callback h cb rest s) = true.
Proof.
  intros Hsub. unfold after_callback.
  destruct (negb _); rewrite ?subscribed_optional_call;
    by apply invoke_subscribed.
Qed.

(** The trace of the state in which the check of line 89 is made. *)
Lemma after_callback_trace h cb rest s :
  (trace s ++ [EvCall (h_sb h) cb]) `prefix_of` trace (after_callback h cb rest s).
Proof.
  unfold after_callback. set (s1 := log _ _).
  assert (trace s1 `prefix_of` trace (invoke cb s1)) as H
    by apply steps_trace, cb_atomic_atomic, invoke_steps.
  destruct (negb _); [|done].
  etrans; [exact H|]. apply steps_trace, optional_call_steps.
Qed.

(** A pass that starts on a non-empty queue starts by calling its first
    callback. *)
Lemma drain_loop_first_call fuel h s s' cb rest :
  queueMap s !! h_sb h = Some (cb :: rest) →
  drain_loop fuel h s = Some s' →
  (trace s ++ [EvCall (h_sb h) cb]) `prefix_of` trace s'.
Proof.
  intros Hq. destruct fuel as [|fuel]; [done|].
  rewrite (drain_loop_S _ _ _ _ _ Hq). cbv zeta.
  pose proof (after_callback_trace h cb rest s) as Ht.
  destruct (queueMap (after_callback h cb rest s) !! h_sb h)
    as [[|c q]|]; [|destruct (negb _)|done].
  - intros [= <-]. simpl. etrans; [exact Ht|]. by apply prefix_app_r.
  - intros H%drain_loop_steps%steps_trace. by etrans.
  - by intros [= <-].
Qed.

(** C5: when the listener runs while [updating] is true, it passes the
    warning to the sink once (a [null] sink is not called) and returns: the
    queue, the listeners and [updating] are as before and no callback is
    called.  When the buffer is free at the next event, the listener starts
    with the callback that was, and still is, first in the queue. *)
Theorem busy_guard_leaves_queue_and_subscription h s :
  is_updating (h_sb h) s = true →
  ∃ s', onSourceBufferReadyAndQueueNotEmpty h s = Some s' ∧
    trace s' = trace s ++ match h_onWarning h with
                          | VFn f => [EvWarn f warn_busy]
                          | VNull => []
                          end ∧
    queueMap s' = queueMap s ∧ listeners s' = listeners s ∧
    updating s' = updating s ∧
    ∀ cb rest, queueMap s !! h_sb h = Some (cb :: rest) →
      ∃ s'', onSourceBufferReadyAndQueueNotEmpty h
               (set_updating (h_sb h) false s') = Some s'' ∧
             (trace s' ++ [EvCall (h_sb h) cb]) `prefix_of` trace s''.
Proof.
  intros Hu. unfold onSourceBufferReadyAndQueueNotEmpty at 1. rewrite Hu.
  eexists. split; [done|].
  assert (queueMap (optional_call (h_onWarning h) warn_busy s) = queueMap s)
    as Hq by (by destruct (h_onWarning h)).
  repeat split; try (by destruct (h_onWarning h)).
  { destruct (h_onWarning h); simpl; by rewrite ?app_nil_r. }
  intros cb rest Hcb. set (s' := optional_call _ _ _) in *.
  assert (queueMap (set_updating (h_sb h) false s') !! h_sb h
          = Some (cb :: rest)) as Hq' by (simpl; by rewrite Hq).
  destruct (handler_total h (set_updating (h_sb h) false s')) as [s'' H''];
    [eauto|].
  exists s''. split; [done|].
  unfold onSourceBufferReadyAndQueueNotEmpty in H''.
  rewrite is_updating_set, decide_True in H'' by done.
  by apply (drain_loop_first_call _ _ _ _ _ _ Hq') in H''.
Qed.

Lemma busy_guard_leaves_queue_and_subscription_witness :
  is_updating 0 queued_state = true ∧
  ∃ s', onSourceBufferReadyAndQueueNotEmpty first_listener queued_state
        = Some s' ∧
        warnings (trace s') = [(ConsoleWarn, warn_busy)] ∧
        queue_of 0 s' = [opA; opB].
Proof.
  split; [vm_compute; reflexivity|].
  destruct (busy_guard_leaves_queue_and_subscription first_listener
              queued_state) as (s' & H & Ht & Hq & _).
  - vm_compute. reflexivity.
  - exists s'. split; [exact H|]. unfold queue_of. rewrite Ht, Hq.
    split; vm_compute; reflexivity.
Defined.

Lemma adds_refl P s : adds P s s.
Proof. exists []. by rewrite app_nil_r. Qed.

Lemma adds_trans P s1 s2 s3 : adds P s1 s2 → adds P s2 s3 → adds P s1 s3.
Proof.
  intros (t1 & H1 & HP1) (t2 & H2 & HP2). exists (t1 ++ t2).
  rewrite H2, H1, (assoc_L (++)). split; [done | by apply Forall_app].
Qed.

Lemma adds_log (P : event → Prop) e s : P e → adds P s (log e s).
Proof. intros He. exists [e]. split; [done | by apply Forall_singleton]. Qed.

Lemma not_a_warning_warns_only w e : not_a_warning e → warns_only w e.
Proof. by destruct e. Qed.

Lemma cb_atomic_adds s s' : cb_atomic s s' → adds not_a_warning s s'.
Proof.
  intros [].
  - exists []. split; [simpl; by rewrite app_nil_r | done].
  - exists [EvSubmit sb cb]. split; [done | by repeat constructor].
  - exists [EvSubmit sb cb; EvCall sb cb]. simpl.
    rewrite <-(assoc_L (++)). split; [done | by repeat constructor].
  - eexists [_; _]. unfold addEventListener. simpl.
    rewrite <-(assoc_L (++)). split; [done | by repeat constructor].
Qed.

Lemma invoke_adds o s : adds not_a_warning s (invoke o s).
Proof.
  pose proof (invoke_steps o s) as H.
  induction H as [|s1 s2 s3 H12%cb_atomic_adds _ IH];
    [apply adds_refl | by eapply adds_trans].
Qed.

Lemma adds_weaken (P Q : event → Prop) s s' :
  (∀ e, P e → Q e) → adds P s s' → adds Q s s'.
Proof.
  intros HPQ (t & Ht & HP). exists t. split; [done|].
  eapply Forall_impl; eauto.
Qed.

Lemma optional_call_adds w msg s :
  adds (warns_only w) s (optional_call w msg s).
Proof. destruct w; [apply adds_refl | by apply adds_log]. Qed.

Lemma after_callback_adds h cb rest s :
  adds (warns_only (h_onWarning h)) s (after_callback h cb rest s).
Proof.
  unfold after_callback. set (s1 := log _ _).
  assert (adds (warns_only (h_onWarning h)) s (invoke cb s1)) as H.
  { apply (adds_trans _ _ s1).
    - exists [EvCall (h_sb h) cb]. split; [done | by repeat constructor].
    - eapply adds_weaken; [apply not_a_warning_warns_only | apply invoke_adds]. }
  destruct (negb _); [|done].
  eapply adds_trans; [exact H | apply optional_call_adds].
Qed.

Lemma drain_loop_adds fuel h s s' :
  drain_loop fuel h s = Some s' → adds (warns_only (h_onWarning h)) s s'.
Proof.
  revert s. induction fuel as [|fuel IH]; intros s; [done|].
  destruct (queueMap s !! h_sb h) as [[|cb rest]|] eqn:Hq.
  - rewrite drain_loop_empty by done. intros [= <-]. by apply adds_log.
  - rewrite (drain_loop_S _ _ _ _ _ Hq). cbv zeta.
    pose proof (after_callback_adds h cb rest s) as Ha.
    destruct (queueMap (after_callback h cb rest s) !! h_sb h)
      as [[|c q]|]; [|destruct (negb _)|done].
    + intros [= <-]. eapply adds_trans; [exact Ha|].
      exists [EvRemoveListener (h_sb h) (h_id h)].
      split; [done | by repeat constructor].
    + intros H%IH. by eapply adds_trans.
    + by intros [= <-].
  - simpl. by rewrite Hq.
Qed.

Lemma handler_adds h s s' :
  onSourceBufferReadyAndQueueNotEmpty h s = Some s' →
  adds (warns_only (h_onWarning h)) s s'.
Proof.
  unfold onSourceBufferReadyAndQueueNotEmpty. destruct (is_updating _ _).
  - intros [= <-]. apply optional_call_adds.
  - apply drain_loop_adds.
Qed.



(** C8: when [updating] still reads false right after a callback taken
    from the queue has been called, the warning is passed to the sink once (a
    [null] sink is not called), nothing else changes, and the loop goes on as
    usual: with the queue empty the listener removes itself, otherwise the
    same pass calls the next callback. *)
Theorem callback_left_buffer_free_warns_and_continues fuel h s cb rest :
  queueMap s !! h_sb h = Some (cb :: rest) →
  let sb := h_sb h in
  let s2 := invoke cb (log (EvCall sb cb) (set_queue sb rest s)) in
  let s3 := optional_call (h_onWarning h) warn_not_busy s2 in
  is_updating sb s2 = false →
  warnings (trace s3) = warnings (trace s) ++
    match h_onWarning h with
    | VFn f => [(f, warn_not_busy)]
    | VNull => []
    end ∧
  queueMap s3 = queueMap s2 ∧ updating s3 = updating s2 ∧
  listeners s3 = listeners s2 ∧
  drain_loop (S fuel) h s =
    match queueMap s2 !! sb with
    | None => None
    | Some [] => Some (removeEventListener sb h s3)
    | Some (_ :: _) => drain_loop fuel h s3
    end ∧
  (∀ c q s', queueMap s2 !! sb = Some (c :: q) →
             drain_loop (S fuel) h s = Some s' →
             (trace s3 ++ [EvCall sb c]) `prefix_of` trace s') ∧
  (queue_size (cb :: rest) ≤ fuel → is_Some (drain_loop (S fuel) h s)).
Proof.
  intros Hq sb s2 s3 Hu.
  assert (queueMap s3 = queueMap s2 ∧ updating s3 = updating s2 ∧
          listeners s3 = listeners s2) as (Hq3 & Hu3 & Hl3)
    by (unfold s3; by destruct (h_onWarning h)).
  assert (after_callback h cb rest s = s3) as Hafter.
  { unfold after_callback. fold sb. fold s2. by rewrite Hu. }
  assert (is_updating sb s3 = false) as Hu3'.
  { unfold is_updating in *. by rewrite Hu3. }
  assert (drain_loop (S fuel) h s =
          match queueMap s2 !! sb with
          | None => None
          | Some [] => Some (removeEventListener sb h s3)
          | Some (_ :: _) => drain_loop fuel h s3
          end) as Hloop.
  { rewrite (drain_loop_S _ _ _ _ _ Hq). cbv zeta. rewrite Hafter.
    fold sb. rewrite Hu3', Hq3. done. }
  split; [|repeat split; try done].
  - unfold s3. transitivity (warnings (trace s2) ++
      match h_onWarning h with VFn f => [(f, warn_not_busy)] | VNull => [] end).
    { destruct (h_onWarning h); simpl;
        by rewrite ?warnings_snoc, ?app_nil_r. }
    f_equal. unfold s2. rewrite invoke_warnings. simpl.
    by rewrite warnings_snoc, app_nil_r.
  - intros c q s' Hc. rewrite Hloop, Hc. intros Hs'.
    apply (drain_loop_first_call fuel h s3 s' c q); [|done].
    fold sb. by rewrite Hq3.
  - intros Hfuel. apply drain_loop_enough; [eauto|].
    rewrite (queue_of_Some _ _ _ Hq). lia.
Qed.

Lemma callback_left_buffer_free_warns_and_continues_witness :
  queueMap lazy_state !! 0 = Some [quiet 5; opB] ∧
  ∃ s', drain_loop 3 first_listener lazy_state = Some s' ∧
        warnings (trace s') = [(ConsoleWarn, warn_not_busy)] ∧
        called 0 (trace s') = [quiet 5; opB].
Proof.
  split; [vm_compute; reflexivity|].
  destruct (callback_left_buffer_free_warns_and_continues 2 first_listener
              lazy_state (quiet 5) [opB]) as (_ & _ & _ & _ & Hloop & _).
  - vm_compute. reflexivity.
  - vm_compute. reflexivity.
  - eexists. split; [rewrite Hloop; vm_compute; reflexivity|].
    split; vm_compute; reflexivity.
Defined.



Lemma exec_defer_listener sb cb a s :
  is_updating sb s = true → queue_of sb s = [] →
  listeners_of sb (execWhenSourceBufferReady sb cb a s)
  = listeners_of sb s ++ [Handler (next_id s) sb (default_param a)] ∧
  is_updating sb (execWhenSourceBufferReady sb cb a s) = true ∧
  trace (execWhenSourceBufferReady sb cb a s)
  = trace s ++ [EvSubmit sb cb; EvAddListener sb (next_id s)].
Proof.
  intros Hu Hq. unfold execWhenSourceBufferReady.
  rewrite exec_with_defer by done. rewrite listeners_of_add, decide_True by done.
  repeat split; [done|]. simpl. by rewrite <-(assoc_L (++)).
Qed.


Lemma handler_free h s :
  is_updating (h_sb h) s = false →
  onSourceBufferReadyAndQueueNotEmpty h s
  = drain_loop (S (queue_size (queue_of (h_sb h) s))) h s.
Proof. intros Hu. unfold onSourceBufferReadyAndQueueNotEmpty. by rewrite Hu. Qed.







(** ** The registry *)

(** C7, as stated, fails: after the queue of buffer 0 has been drained to
    empty and the listener has removed itself, the registry still has the
    entry of buffer 0; it holds the empty array. *)
Lemma drained_queue_stays_in_registry :
  run scenario_inputs init = Some scenario_final ∧
  called 0 (trace scenario_final) = [opA; quiet 4] ∧
  listeners_of 0 scenario_final = [] ∧
  queueMap scenario_final !! 0 = Some [] ∧
  queueMap scenario_final !! 0 ≠ None.
Proof. vm_compute. repeat split; done. Qed.

Lemma subscribed_remove h s :
  subscribed h (removeEventListener (h_sb h) h s) = false.
Proof.
  unfold subscribed. rewrite listeners_of_remove, decide_True by done.
  destruct (existsb _ _) eqn:He; [|done].
  apply existsb_exists in He as (h' & Hin & Hid).
  apply list_elem_of_In, list_elem_of_filter in Hin as [Hne _].
  by apply bool_decide_eq_true in Hid.
Qed.

(** A pass that starts on a non-empty queue and ends with the queue empty
    has ended by removing the listener. *)
Lemma drain_loop_drained fuel h s s' :
  queue_of (h_sb h) s ≠ [] → drain_loop fuel h s = Some s' →
  queue_of (h_sb h) s' = [] →
  queueMap s' !! h_sb h = Some [] ∧ subscribed h s' = false ∧
  ∃ t, trace s' = t ++ [EvRemoveListener (h_sb h) (h_id h)].
Proof.
  revert s. induction fuel as [|fuel IH]; intros s Hne; [done|].
  destruct (queueMap s !! h_sb h) as [[|cb rest]|] eqn:Hq;
    try (by rewrite queue_of_nil in Hne; intuition).
  rewrite (drain_loop_S _ _ _ _ _ Hq). cbv zeta.
  destruct (queueMap (after_callback h cb rest s) !! h_sb h)
    as [[|c q]|] eqn:Hq3; [| |done].
  - intros [= <-] _. split; [done|]. split; [apply subscribed_remove|].
    by eexists.
  - destruct (negb _).
    + apply IH. by rewrite (queue_of_Some _ _ _ Hq3).
    + intros [= <-]. by rewrite (queue_of_Some _ _ _ Hq3).
Qed.

(** C7, amended: when a pass of the listener takes the last callback from
    the queue, so that the pass ends with the queue empty, the listener has
    removed itself, and the registry entry of the buffer is still there and
    holds the empty queue; no input removes an entry from the registry; and
    a later call made while the buffer is updating pushes its callback onto
    that same entry and registers a new listener. *)
Theorem drained_queue_entry_is_empty_not_absent :
  (∀ h s s',
     is_updating (h_sb h) s = false → queue_of (h_sb h) s ≠ [] →
     onSourceBufferReadyAndQueueNotEmpty h s = Some s' →
     queue_of (h_sb h) s' = [] →
     queueMap s' !! h_sb h = Some [] ∧ subscribed h s' = false ∧
     ∃ t, trace s' = t ++ [EvRemoveListener (h_sb h) (h_id h)]) ∧
  (∀ i s s' sb,
     step i s = Some s' →
     is_Some (queueMap s !! sb) → is_Some (queueMap s' !! sb)) ∧
  (∀ sb cb w s,
     queueMap s !! sb = Some [] → is_updating sb s = true →
     let s' := execWhenSourceBufferReady sb cb w s in
     queueMap s' = <[sb := [cb]]> (queueMap s) ∧
     listeners_of sb s'
     = listeners_of sb s ++ [Handler (next_id s) sb (default_param w)] ∧
     trace s' = trace s ++ [EvSubmit sb cb; EvAddListener sb (next_id s)]).
Proof.
  split; [|split].
  - intros h s s' Hu Hne. rewrite handler_free by done.
    by apply drain_loop_drained.
  - intros i s s' sb H%step_steps. by apply steps_entry.
  - intros sb cb w s Hq Hu. cbv zeta.
    assert (queue_of sb s = []) as Hq' by (by apply queue_of_Some).
    destruct (exec_defer_listener sb cb w s Hu Hq') as (Hl & _ & Ht).
    split; [|done]. unfold execWhenSourceBufferReady.
    by rewrite exec_with_defer.
Qed.

Lemma drained_queue_entry_is_empty_not_absent_witness :
  is_updating 0 draining_state = false ∧
  queue_of 0 draining_state = [quiet 4] ∧
  onSourceBufferReadyAndQueueNotEmpty first_listener draining_state
  = Some scenario_final ∧
  queue_of 0 scenario_final = [] ∧
  queueMap scenario_final !! 0 = Some [] ∧
  subscribed first_listener scenario_final = false.
Proof.
  assert (is_updating 0 draining_state = false) as H1
    by (vm_compute; reflexivity).
  assert (queue_of 0 draining_state = [quiet 4]) as H2
    by (vm_compute; reflexivity).
  assert (onSourceBufferReadyAndQueueNotEmpty first_listener draining_state
          = Some scenario_final) as H3 by (vm_compute; reflexivity).
  assert (queue_of 0 scenario_final = []) as H4 by (vm_compute; reflexivity).
  split; [exact H1|]. split; [exact H2|]. split; [exact H3|].
  split; [exact H4|].
  destruct drained_queue_entry_is_empty_not_absent as [H _].
  destruct (H first_listener draining_state scenario_final) as (Hq & Hs & _).
  - exact H1.
  - change (h_sb first_listener) with 0. rewrite H2. discriminate.
  - exact H3.
  - exact H4.
  - split; [exact Hq | exact Hs].
Defined.

(** ** Draining without waiting *)

Lemma stays_free_shift sb s0 s cb rest :
  stays_free sb s0 s → queueMap s !! sb = Some (cb :: rest) →
  never_busies sb cb = true ∧
  stays_free sb s0 (log (EvCall sb cb) (set_queue sb rest s)).
Proof.
  intros [Hu Hl HF Ha] Hq. rewrite (queue_of_Some _ _ _ Hq) in HF.
  apply Forall_cons in HF as [Hcb Hrest]. split; [done|]. split.
  - done.
  - done.
  - rewrite queue_of_log, queue_of_set_queue. by rewrite decide_True.
  - intros H0%Ha. congruence.
Qed.

Lemma stays_free_optional_call sb s0 w msg s :
  stays_free sb s0 s → stays_free sb s0 (optional_call w msg s).
Proof. destruct w; [done|]. by intros []. Qed.

Lemma drain_loop_stays_free fuel h s0 s s' :
  stays_free (h_sb h) s0 s → queue_of (h_sb h) s ≠ [] →
  drain_loop fuel h s = Some s' →
  queue_of (h_sb h) s' = [] ∧
  listeners_of (h_sb h) s'
  = filter (λ h', h_id h' ≠ h_id h) (listeners_of (h_sb h) s0).
Proof.
  revert s. induction fuel as [|fuel IH]; intros s Hsf Hne; [done|].
  destruct (queueMap s !! h_sb h) as [[|cb rest]|] eqn:Hq;
    try (by rewrite queue_of_nil in Hne; intuition).
  rewrite (drain_loop_S _ _ _ _ _ Hq). cbv zeta.
  destruct (stays_free_shift _ _ _ _ _ Hsf Hq) as [Hcb Hsf1].
  assert (stays_free (h_sb h) s0 (after_callback h cb rest s)) as Hsf3.
  { unfold after_callback. destruct (negb _).
    - by apply stays_free_optional_call, invoke_stays_free.
    - by apply invoke_stays_free. }
  set (s3 := after_callback h cb rest s) in *.
  destruct (queueMap s3 !! h_sb h) as [[|c q]|] eqn:Hq3; [| |done].
  - intros [= <-]. split.
    + unfold queue_of. simpl. by rewrite Hq3.
    + rewrite listeners_of_remove, decide_True by done.
      by rewrite (sf_listeners _ _ _ Hsf3).
  - rewrite (sf_updating _ _ _ Hsf3). simpl. apply IH; [done|].
    by rewrite (queue_of_Some _ _ _ Hq3).
Qed.

Lemma submitted_prefix sb t t' :
  t `prefix_of` t' → submitted sb t `prefix_of` submitted sb t'.
Proof.
  intros [k ->]. unfold submitted. rewrite omap_app. by apply prefix_app_r.
Qed.

(** C2: in a pass that has passed the check of [updating], when the buffer
    is free and the queue is not empty after a callback has been called, the
    same pass calls the next callback.  In particular, when the buffer is free
    and no callback in the queue makes it busy, one 'updateend' event empties
    the queue: every queued callback is called, in order, and the listener is
    removed. *)
Theorem drain_continues_without_waiting h s :
  is_updating (h_sb h) s = false →
  (∀ cb rest cb' rest',
     queueMap s !! h_sb h = Some (cb :: rest) →
     let s3 := after_callback h cb rest s in
     queueMap s3 !! h_sb h = Some (cb' :: rest') →
     is_updating (h_sb h) s3 = false →
     ∃ s', onSourceBufferReadyAndQueueNotEmpty h s = Some s' ∧
           (trace s3 ++ [EvCall (h_sb h) cb']) `prefix_of` trace s') ∧
  (∀ q,
     reachable s → listeners_of (h_sb h) s = [h] →
     queueMap s !! h_sb h = Some q → q ≠ [] →
     Forall (λ o, never_busies (h_sb h) o = true) q →
     ∃ s', step (UpdateEnd (h_sb h)) s = Some s' ∧
           queue_of (h_sb h) s' = [] ∧ listeners_of (h_sb h) s' = [] ∧
           ∃ l, called (h_sb h) (trace s')
                = called (h_sb h) (trace s) ++ q ++ l).
Proof.
  intros Hu. split.
  - intros cb rest cb' rest' Hq s3 Hq3 Hu3.
    destruct (handler_total h s) as [s' Hs']; [eauto|].
    exists s'. split; [done|].
    rewrite handler_free in Hs' by done.
    rewrite (drain_loop_S _ _ _ _ _ Hq) in Hs'. cbv zeta in Hs'.
    fold s3 in Hs'. rewrite Hq3, Hu3 in Hs'. simpl in Hs'.
    by eapply drain_loop_first_call.
  - intros q Hreach Hl Hq Hne HF.
    assert (subscribed h s = true) as Hsub.
    { apply subscribed_spec. exists h. rewrite Hl.
      split; [by apply list_elem_of_singleton | done]. }
    destruct (handler_total h s) as [s' Hs']; [eauto|].
    exists s'. simpl. rewrite Hl. simpl. rewrite Hsub, Hs'. simpl.
    split; [done|].
    assert (stays_free (h_sb h) s s) as Hsf.
    { apply stays_free_refl; [done|]. by rewrite (queue_of_Some _ _ _ Hq). }
    pose proof Hs' as Hloop. rewrite handler_free in Hloop by done.
    apply (drain_loop_stays_free _ _ s) in Hloop as [Hq' Hl'];
      [|done|by rewrite (queue_of_Some _ _ _ Hq)].
    split; [done|]. split.
    { rewrite Hl', Hl. rewrite filter_cons_False by (by intros ?). done. }
    assert (reachable s') as Hreach'.
    { eapply (reachable_run [UpdateEnd (h_sb h)]); [done|]. simpl.
      rewrite Hl. simpl. by rewrite Hsub, Hs'. }
    pose proof (reachable_fifo _ Hreach (h_sb h)) as Hf.
    pose proof (reachable_fifo _ Hreach' (h_sb h)) as Hf'.
    rewrite Hq', app_nil_r in Hf'. rewrite (queue_of_Some _ _ _ Hq) in Hf.
    destruct (submitted_prefix (h_sb h) (trace s) (trace s')) as [l Hsl].
    { by eapply steps_trace, handler_steps. }
    exists l. by rewrite <-Hf', Hsl, Hf, <-(assoc_L (++)).
Qed.

Lemma drain_continues_without_waiting_witness :
  is_updating 0 idle_state = false ∧
  ∃ s', step (UpdateEnd 0) idle_state = Some s' ∧
        queue_of 0 s' = [] ∧ listeners_of 0 s' = [] ∧
        ∃ l, called 0 (trace s') = [quiet 5; quiet 6; quiet 7] ++ l.
Proof.
  assert (is_updating 0 idle_state = false) as Hu by (vm_compute; reflexivity).
  split; [exact Hu|].
  destruct (drain_continues_without_waiting first_listener idle_state Hu)
    as [_ H].
  apply (H [quiet 5; quiet 6; quiet 7]).
  - exists idle_inputs. vm_compute. reflexivity.
  - vm_compute. reflexivity.
  - vm_compute. reflexivity.
  - discriminate.
  - repeat constructor.
Defined.

(** ** Callbacks that submit *)

(** C4: the code at the failing input.  R is taken from the queue, which
    leaves the queue empty, R makes the buffer busy and submits S: the call
    finds the queue empty and the buffer busy and registers a second
    listener, while the first, which is running, stays.  After the next
    event the queue is empty and the second listener is still registered. *)
Theorem reentrant_submit_breaks_subscription_invariant :
  run reentrant_inputs_1 init = Some reentrant_state_1 ∧
  queue_of 0 reentrant_state_1 = [opS] ∧
  listeners_of 0 reentrant_state_1
  = [Handler 0 0 (VFn ConsoleWarn); Handler 1 0 (VFn ConsoleWarn)] ∧
  run reentrant_inputs_2 init = Some reentrant_state_2 ∧
  called 0 (trace reentrant_state_2) = [opA; opR; opS] ∧
  queue_of 0 reentrant_state_2 = [] ∧
  listeners_of 0 reentrant_state_2 = [Handler 1 0 (VFn ConsoleWarn)].
Proof. vm_compute. repeat split; reflexivity. Qed.

(** C9: the code at the failing input.  The listener left behind runs at
    the next event with the buffer free and the queue empty: [queue.shift()]
    gives [undefined] and calling it throws. *)
Theorem reentrant_submit_shifts_empty_queue :
  run reentrant_inputs_3 init = Some reentrant_state_3 ∧
  is_updating 0 reentrant_state_2 = true ∧
  queueMap (set_updating 0 false reentrant_state_2) !! 0 = Some [] ∧
  onSourceBufferReadyAndQueueNotEmpty (Handler 1 0 (VFn ConsoleWarn))
    (set_updating 0 false reentrant_state_2)
  = Some reentrant_state_3 ∧
  trace reentrant_state_3 = trace reentrant_state_2 ++ [EvTypeError 0 1].
Proof. vm_compute. repeat split; reflexivity. Qed.

(** ** Callbacks that do not submit *)

Lemma adds_no_type_error s s' :
  adds not_a_type_error s s' → no_type_error s → no_type_error s'.
Proof.
  intros (t & Ht & HP) Hs. unfold no_type_error. rewrite Ht.
  by apply Forall_app.
Qed.

Lemma after_callback_plain h cb rest s :
  submits_nothing cb = true →
  let s3 := after_callback h cb rest s in
  queueMap s3 = <[h_sb h := rest]> (queueMap s) ∧
  listeners s3 = listeners s ∧
  adds not_a_type_error s s3.
Proof.
  intros Hcb. cbv zeta. unfold after_callback.
  set (s1 := log _ (set_queue (h_sb h) rest s)).
  destruct (invoke_submits_nothing cb s1 Hcb) as (Hq & Hl & Ht).
  assert (adds not_a_type_error s (invoke cb s1)) as Ha.
  { exists [EvCall (h_sb h) cb]. rewrite Ht. split; [done|].
    by repeat constructor. }
  destruct (negb _); [|done].
  destruct (h_onWarning h); simpl; [done|]. rewrite Hq, Hl.
  repeat split. eapply adds_trans; [exact Ha|].
  exists [EvWarn f warn_not_busy]. split; [done | by repeat constructor].
Qed.

Lemma queue_of_insert sb sb' q s s' :
  queueMap s' = <[sb := q]> (queueMap s) →
  queue_of sb' s' = if decide (sb = sb') then q else queue_of sb' s.
Proof.
  intros H. unfold queue_of. rewrite H. case_decide; simplify_map_eq; done.
Qed.

Lemma listeners_of_same sb s s' :
  listeners s' = listeners s → listeners_of sb s' = listeners_of sb s.
Proof. unfold listeners_of. by intros ->. Qed.

Lemma drain_loop_plain fuel h s s' :
  Forall (λ o, submits_nothing o = true) (queue_of (h_sb h) s) →
  queue_of (h_sb h) s ≠ [] →
  drain_loop fuel h s = Some s' →
  (∀ sb', sb' ≠ h_sb h →
     queue_of sb' s' = queue_of sb' s ∧
     listeners_of sb' s' = listeners_of sb' s) ∧
  Forall (λ o, submits_nothing o = true) (queue_of (h_sb h) s') ∧
  ((queue_of (h_sb h) s' = [] ∧
    listeners_of (h_sb h) s'
    = filter (λ h', h_id h' ≠ h_id h) (listeners_of (h_sb h) s)) ∨
   (queue_of (h_sb h) s' ≠ [] ∧
    listeners_of (h_sb h) s' = listeners_of (h_sb h) s)) ∧
  adds not_a_type_error s s'.
Proof.
  revert s. induction fuel as [|fuel IH]; intros s HF Hne; [done|].
  destruct (queueMap s !! h_sb h) as [[|cb rest]|] eqn:Hq;
    try (by rewrite queue_of_nil in Hne; intuition).
  rewrite (drain_loop_S _ _ _ _ _ Hq). cbv zeta.
  rewrite (queue_of_Some _ _ _ Hq) in HF.
  apply Forall_cons in HF as [Hcb Hrest].
  destruct (after_callback_plain h cb rest s Hcb) as (Hq3 & Hl3 & Ha3).
  set (s3 := after_callback h cb rest s) in *.
  assert (∀ sb', sb' ≠ h_sb h →
            queue_of sb' s3 = queue_of sb' s ∧
            listeners_of sb' s3 = listeners_of sb' s) as Hframe.
  { intros sb' Hsb'. rewrite (queue_of_insert _ sb' _ _ _ Hq3).
    rewrite decide_False by done. by rewrite (listeners_of_same _ _ _ Hl3). }
  assert (queue_of (h_sb h) s3 = rest) as Hrest3.
  { rewrite (queue_of_insert _ (h_sb h) _ _ _ Hq3). by rewrite decide_True. }
  assert (queueMap s3 !! h_sb h = Some rest) as Hlk
    by (rewrite Hq3; by rewrite lookup_insert_eq).
  rewrite Hlk. destruct rest as [|c q].
  - intros [= <-]. split; [|split; [|split]].
    + intros sb' Hsb'. destruct (Hframe sb' Hsb') as [<- <-].
      unfold queue_of. simpl. split; [done|].
      rewrite listeners_of_remove. by rewrite decide_False.
    + unfold queue_of. simpl. by rewrite Hlk.
    + left. split; [unfold queue_of; simpl; by rewrite Hlk|].
      rewrite listeners_of_remove, decide_True by done.
      by rewrite (listeners_of_same _ _ _ Hl3).
    + eapply adds_trans; [exact Ha3|].
      exists [EvRemoveListener (h_sb h) (h_id h)].
      split; [done | by repeat constructor].
  - destruct (negb _).
    + intros H. apply IH in H as (Hfr & HF' & Hcase & Ha);
        [|by rewrite Hrest3|by rewrite Hrest3].
      split; [|split; [|split]].
      * intros sb' Hsb'. destruct (Hfr sb' Hsb') as [-> ->]. by apply Hframe.
      * done.
      * rewrite (listeners_of_same _ _ _ Hl3) in Hcase. done.
      * by eapply adds_trans.
    + intros [= <-]. split; [|split; [|split]]; try done.
      * by rewrite Hrest3.
      * right. rewrite Hrest3. split; [done|].
        by rewrite (listeners_of_same _ _ _ Hl3).
Qed.

Lemma subscription_inv_same s s' :
  queueMap s' = queueMap s → listeners s' = listeners s →
  subscription_inv s → subscription_inv s'.
Proof.
  intros Hq Hl Hs sb. specialize (Hs sb). unfold queue_of, listeners_of in *.
  by rewrite Hq, Hl.
Qed.

Lemma no_type_error_snoc s s' t :
  trace s' = trace s ++ t → Forall not_a_type_error t →
  no_type_error s → no_type_error s'.
Proof. intros Ht HP. apply adds_no_type_error. by exists t. Qed.

Lemma exec_plain sb cb w s :
  submits_nothing cb = true → subscription_inv s → no_type_error s →
  subscription_inv (execWhenSourceBufferReady sb cb w s) ∧
  no_type_error (execWhenSourceBufferReady sb cb w s).
Proof.
  intros Hcb Hs Hte. unfold execWhenSourceBufferReady.
  destruct (queue_cases sb s) as [(c & q & Hq)|Hq].
  - rewrite (exec_with_push _ _ _ _ _ _ _ Hq). split.
    + intros sb'. destruct (Hs sb') as [HF Hcase].
      rewrite queue_of_set_queue. case_decide as Hsb; [subst sb'|done].
      rewrite (queue_of_Some _ _ _ Hq) in HF, Hcase. split.
      * apply Forall_app. split; [done | by apply Forall_singleton].
      * right. split; [done|]. by destruct Hcase as [[? _]|[_ ?]].
    + eapply no_type_error_snoc;
        [simpl; reflexivity | by repeat constructor | done].
  - destruct (is_updating sb s) eqn:Hu.
    + rewrite exec_with_defer by done. split.
      * intros sb'. destruct (Hs sb') as [HF Hcase].
        rewrite listeners_of_add.
        replace (queue_of sb' (addEventListener sb (default_param w)
                   (set_queue sb [cb] (log (EvSubmit sb cb) s))))
          with (if decide (sb = sb') then [cb] else queue_of sb' s)
          by (by rewrite <-queue_of_set_queue).
        case_decide as Hsb; [subst sb'|done].
        split; [by apply Forall_singleton|]. right. split; [done|].
        destruct Hcase as [[_ Hl]|[Hne _]]; [|done].
        change (listeners_of sb (set_queue sb [cb] (log (EvSubmit sb cb) s)))
          with (listeners_of sb s). rewrite Hl. eauto.
      * eapply no_type_error_snoc;
          [unfold addEventListener; simpl; by rewrite <-(assoc_L (++))
          |by repeat constructor | done].
    + rewrite exec_with_now by done.
      destruct (invoke_submits_nothing cb
                  (log (EvCall sb cb) (log (EvSubmit sb cb) s)) Hcb)
        as (Hq' & Hl' & Ht'). split.
      * by eapply subscription_inv_same.
      * eapply no_type_error_snoc;
          [rewrite Ht'; simpl; by rewrite <-(assoc_L (++))
          |by repeat constructor | done].
Qed.

Lemma handler_plain h s s' :
  subscription_inv s → no_type_error s →
  listeners_of (h_sb h) s = [h] →
  onSourceBufferReadyAndQueueNotEmpty h s = Some s' →
  subscription_inv s' ∧ no_type_error s'.
Proof.
  intros Hs Hte Hl. unfold onSourceBufferReadyAndQueueNotEmpty.
  destruct (is_updating _ _).
  - intros [= <-]. destruct (h_onWarning h); [done|]. split.
    + by eapply subscription_inv_same.
    + eapply no_type_error_snoc;
        [simpl; reflexivity | by repeat constructor | done].
  - intros Hloop. destruct (Hs (h_sb h)) as [HF [[_ Hnil]|[Hne _]]];
      [congruence|].
    apply drain_loop_plain in Hloop as (Hframe & HF' & Hcase & Ha); [|done..].
    split; [|by eapply adds_no_type_error].
    intros sb'. destruct (decide (sb' = h_sb h)) as [->|Hsb].
    + split; [done|]. destruct Hcase as [[Hq' Hl']|[Hq' Hl']].
      * left. split; [done|]. rewrite Hl', Hl.
        by rewrite filter_cons_False by (by intros ?).
      * right. split; [done|]. rewrite Hl', Hl. eauto.
    + destruct (Hframe sb' Hsb) as [-> ->]. apply Hs.
Qed.

Lemma step_plain i s s' :
  plain_input i → subscription_inv s → no_type_error s →
  step i s = Some s' → subscription_inv s' ∧ no_type_error s'.
Proof.
  intros Hi Hs Hte. destruct i as [sb cb w|sb|sb b]; simpl.
  - intros [= <-]. by apply exec_plain.
  - destruct (Hs sb) as [_ [[_ Hl]|[_ (h & Hl & Hsb)]]]; rewrite Hl; simpl.
    + by intros [= <-].
    + subst sb.
      assert (subscribed h s = true) as ->.
      { apply subscribed_spec. exists h. rewrite Hl.
        split; [by apply list_elem_of_singleton | done]. }
      destruct (onSourceBufferReadyAndQueueNotEmpty h s) as [s1|] eqn:H1;
        simpl; [|done].
      intros [= <-]. by eapply handler_plain.
  - by intros [= <-].
Qed.

(** The invariant the listener relies on, for runs in which no callback
    submits another one. *)
Lemma subscription_inv_of_plain_runs ins s :
  Forall plain_input ins → run ins init = Some s →
  subscription_inv s ∧ no_type_error s.
Proof.
  assert (subscription_inv init ∧ no_type_error init) as H0.
  { split; [|by constructor]. intros sb. unfold queue_of, listeners_of.
    simpl. rewrite !lookup_empty. simpl. split; [done | by left]. }
  revert H0. generalize init. intros s0 [Hs Hte] Hins. revert s0 Hs Hte.
  induction Hins as [|i ins Hi _ IH]; intros s0 Hs Hte; simpl.
  - by intros [= <-].
  - destruct (step i s0) as [s1|] eqn:H1; simpl; [|done].
    destruct (step_plain i s0 s1 Hi Hs Hte H1) as [Hs1 Hte1]. by apply IH.
Qed.

(** ** Wake-ups *)

Lemma atomic_wakeup s s' : atomic s s' → wakeup_inv s → wakeup_inv s'.
Proof.
  intros Hstep Hs sb'. specialize (Hs sb').
  destruct Hstep as [s1 s2 [s sb b|s sb cb c q Hq|s sb cb|s sb cb w]
                    |s sb cb rest Hq|s f msg|s h Hq|s h Hq]; try done.
  - rewrite queue_of_set_queue. case_decide; [subst sb'|done].
    intros _. apply Hs. by rewrite (queue_of_Some _ _ _ Hq).
  - rewrite listeners_of_add. case_decide; [subst sb'|].
    + intros _ Hnil. by apply app_eq_nil in Hnil as [_ ?].
    + intros Hq. apply Hs. revert Hq.
      unfold queue_of, addEventListener. simpl. by simplify_map_eq.
  - rewrite queue_of_log, queue_of_set_queue. case_decide; [subst sb'|done].
    intros _. apply Hs. by rewrite (queue_of_Some _ _ _ Hq).
  - rewrite listeners_of_remove. case_decide as Hsb; [|done].
    rewrite <-Hsb. unfold queue_of. simpl. by rewrite Hq.
Qed.

(** X2: in every reachable state, also after callbacks that submit
    callbacks, a buffer whose queue is not empty has at least one 'updateend'
    listener, registered on that buffer. *)
Theorem queued_callbacks_have_a_listener ins s sb :
  run ins init = Some s → queue_of sb s ≠ [] →
  ∃ h, h ∈ listeners_of sb s ∧ h_sb h = sb ∧ subscribed h s = true.
Proof.
  intros Hrun Hq.
  assert (wakeup_inv s) as Hw.
  { eapply (rtc_preserves atomic wakeup_inv atomic_wakeup);
      [by eapply run_steps | by intros sb']. }
  assert (listeners_ok s) as Hok.
  { eapply steps_listeners_ok; [by eapply run_steps | apply listeners_ok_init]. }
  specialize (Hw sb Hq). destruct (listeners_of sb s) as [|h hs] eqn:Hl; [done|].
  assert (h ∈ listeners_of sb s) as Hin by (rewrite Hl; apply list_elem_of_here).
  destruct (Hok sb h Hin) as [Hsb _].
  exists h. rewrite <-Hl. split; [done|]. split; [done|].
  apply subscribed_spec. exists h. by rewrite Hsb.
Qed.

Lemma queued_callbacks_have_a_listener_witness :
  ∃ h, h ∈ listeners_of 0 reentrant_state_1 ∧ h_sb h = 0 ∧
       subscribed h reentrant_state_1 = true.
Proof.
  apply (queued_callbacks_have_a_listener reentrant_inputs_1).
  - vm_compute. reflexivity.
  - vm_compute. discriminate.
Defined.

(** ** What a pass leaves behind *)

Lemma drain_loop_ends fuel h s s' :
  drain_loop fuel h s = Some s' →
  queue_of (h_sb h) s' = [] ∨ is_updating (h_sb h) s' = true.
Proof.
  revert s. induction fuel as [|fuel IH]; intros s; [done|].
  destruct (queueMap s !! h_sb h) as [[|cb rest]|] eqn:Hq.
  - rewrite drain_loop_empty by done. intros [= <-]. left.
    rewrite queue_of_log. by apply queue_of_Some.
  - rewrite (drain_loop_S _ _ _ _ _ Hq). cbv zeta.
    destruct (queueMap (after_callback h cb rest s) !! h_sb h)
      as [[|c q]|] eqn:Hq3; [| |done].
    + intros [= <-]. left. unfold queue_of. simpl. by rewrite Hq3.
    + destruct (is_updating (h_sb h) (after_callback h cb rest s)) eqn:Hu3;
        simpl; [|apply IH].
      intros [= <-]. by right.
  - simpl. by rewrite Hq.
Qed.

(** X3: a pass of the listener that finds the buffer free never ends with
    the buffer free and callbacks left in the queue: when it returns, the
    queue is empty or [updating] is true, so that another 'updateend' is due.
    (This is what the [do ... while] is for.) *)
Theorem pass_ends_with_queue_empty_or_buffer_busy h s :
  is_Some (queueMap s !! h_sb h) →
  is_updating (h_sb h) s = false →
  ∃ s', onSourceBufferReadyAndQueueNotEmpty h s = Some s' ∧
        (queue_of (h_sb h) s' = [] ∨ is_updating (h_sb h) s' = true).
Proof.
  intros Hsome Hu. destruct (handler_total h s Hsome) as [s' Hs'].
  exists s'. split; [done|].
  rewrite handler_free in Hs' by done. by eapply drain_loop_ends.
Qed.

Lemma pass_ends_with_queue_empty_or_buffer_busy_witness :
  ∃ s', onSourceBufferReadyAndQueueNotEmpty first_listener lazy_state = Some s' ∧
        (queue_of 0 s' = [] ∨ is_updating 0 s' = true).
Proof.
  apply (pass_ends_with_queue_empty_or_buffer_busy first_listener lazy_state).
  - vm_compute. eauto.
  - vm_compute. reflexivity.
Defined.

(** ** From submission to call *)

Lemma updateend_calls_head sb s h hs cb rest :
  listeners_ok s → is_updating sb s = false →
  queueMap s !! sb = Some (cb :: rest) →
  listeners_of sb s = h :: hs →
  ∃ s', step (UpdateEnd sb) s = Some s' ∧
        (trace s ++ [EvCall sb cb]) `prefix_of` trace s'.
Proof.
  intros Hok Hu Hq Hl. simpl. rewrite Hl. simpl.
  assert (h ∈ listeners_of sb s) as Hin by (rewrite Hl; apply list_elem_of_here).
  destruct (Hok sb h Hin) as [Hsb _]. subst sb.
  assert (subscribed h s = true) as ->.
  { apply subscribed_spec. by exists h. }
  destruct (handler_total h s) as [s1 H1]; [eauto|]. rewrite H1. simpl.
  assert (listeners_ok s1) as Hok1
    by (eapply steps_listeners_ok; [by eapply handler_steps | done]).
  destruct (dispatch_total hs s1 Hok1) as [s' Hs']. exists s'.
  split; [done|]. etrans; [|by eapply steps_trace, dispatch_steps].
  rewrite handler_free in H1 by done. by eapply drain_loop_first_call.
Qed.

(** X1: a callback submitted while the buffer is busy and nothing is queued
    is not called by the call; it is alone in the queue, and when the buffer
    has become free and 'updateend' is fired, it is the first thing that is
    called.  This holds in every reachable state. *)
Theorem deferred_callback_runs_at_next_free_updateend ins s sb cb w :
  run ins init = Some s →
  is_updating sb s = true → queue_of sb s = [] →
  let s1 := execWhenSourceBufferReady sb cb w s in
  trace s1 = trace s ++ [EvSubmit sb cb; EvAddListener sb (next_id s)] ∧
  queue_of sb s1 = [cb] ∧
  ∃ s', step (UpdateEnd sb) (set_updating sb false s1) = Some s' ∧
        (trace s1 ++ [EvCall sb cb]) `prefix_of` trace s'.
Proof.
  intros Hrun Hu Hq s1.
  destruct (exec_defer_listener sb cb w s Hu Hq) as (Hl & _ & Ht).
  fold s1 in Hl, Ht.
  assert (queueMap s1 !! sb = Some [cb]) as Hq1.
  { unfold s1, execWhenSourceBufferReady. rewrite exec_with_defer by done.
    simpl. by rewrite lookup_insert_eq. }
  split; [done|]. split; [by apply queue_of_Some|].
  assert (listeners_ok (set_updating sb false s1)) as Hok.
  { eapply steps_listeners_ok; [|apply listeners_ok_init].
    etrans; [by eapply run_steps|].
    etrans; [apply cb_atomic_atomic, exec_steps|].
    apply rtc_once, at_cb, at_set. }
  destruct (listeners_of sb s) as [|h hs] eqn:Hls;
    (eapply (updateend_calls_head sb (set_updating sb false s1));
      [done | by rewrite is_updating_set, decide_True | done | exact Hl]).
Qed.

Lemma deferred_callback_runs_at_next_free_updateend_witness :
  ∃ s', step (UpdateEnd 0)
          (set_updating 0 false
             (execWhenSourceBufferReady 0 opS Null reentrant_state_2))
        = Some s' ∧
        (trace (execWhenSourceBufferReady 0 opS Null reentrant_state_2)
           ++ [EvCall 0 opS]) `prefix_of` trace s'.
Proof.
  destruct (deferred_callback_runs_at_next_free_updateend reentrant_inputs_2
              reentrant_state_2 0 opS Null) as (_ & _ & H).
  - vm_compute. reflexivity.
  - vm_compute. reflexivity.
  - vm_compute. reflexivity.
  - exact H.
Defined.

(** ** Whose sink *)

(** X4: the [onWarning] argument is used only by a call that registers a
    listener.  A call that runs its callback at once or appends it to a
    non-empty queue does the same whatever [onWarning] is, and every warning
    of a pass goes to the sink the listener was registered with, also a
    warning about a callback that was submitted with another sink. *)
Theorem warnings_go_to_the_sink_of_the_listener :
  (∀ sb cb w w' s,
     queue_of sb s ≠ [] ∨ is_updating sb s = false →
     execWhenSourceBufferReady sb cb w s = execWhenSourceBufferReady sb cb w' s) ∧
  (∀ h s s',
     onSourceBufferReadyAndQueueNotEmpty h s = Some s' →
     ∃ t, trace s' = trace s ++ t ∧
          ∀ f m, EvWarn f m ∈ t → h_onWarning h = VFn f).
Proof.
  split.
  - intros sb cb w w' s Hcase. unfold execWhenSourceBufferReady.
    destruct (queue_cases sb s) as [(c & q & Hq)|Hq].
    + by rewrite !(exec_with_push _ _ _ _ _ _ _ Hq).
    + destruct Hcase as [?|Hu]; [done|]. by rewrite !exec_with_now.
  - intros h s s' (t & Ht & HP)%handler_adds. exists t. split; [done|].
    intros f m Hin. rewrite Forall_forall in HP. exact (HP _ Hin).
Qed.

Lemma warnings_go_to_the_sink_of_the_listener_witness :
  ∃ s', onSourceBufferReadyAndQueueNotEmpty first_listener mixed_sinks_state
        = Some s' ∧
        called 0 (trace s') = [quiet 5; quiet 6] ∧
        warnings (trace s')
        = [(ConsoleWarn, warn_not_busy); (ConsoleWarn, warn_not_busy)] ∧
        ∃ t, trace s' = trace mixed_sinks_state ++ t ∧
             ∀ f m, EvWarn f m ∈ t → VFn ConsoleWarn = VFn f.
Proof.
  destruct warnings_go_to_the_sink_of_the_listener as [_ H].
  eexists. split; [vm_compute; reflexivity|].
  split; [vm_compute; reflexivity|]. split; [vm_compute; reflexivity|].
  apply (H first_listener mixed_sinks_state). vm_compute. reflexivity.
Defined.

(** ** Runs in which no callback submits *)

(** X5: when no callback calls [execWhenSourceBufferReady] itself, then
    after every input each buffer has one listener when its queue is not
    empty and none when it is empty or absent, and no listener has ever found
    its queue empty. *)
Theorem one_listener_while_queue_nonempty ins s sb :
  Forall plain_input ins → run ins init = Some s →
  length (listeners_of sb s) = match queue_of sb s with [] => 0 | _ => 1 end ∧
  Forall not_a_type_error (trace s).
Proof.
  intros Hins Hrun.
  destruct (subscription_inv_of_plain_runs ins s Hins Hrun) as [Hs Hte].
  split; [|done].
  destruct (Hs sb) as [_ [[-> ->]|[Hne (h & -> & _)]]]; [done|].
  by destruct (queue_of sb s).
Qed.

Lemma one_listener_while_queue_nonempty_witness :
  length (listeners_of 0 abc_final) = 0 ∧ queue_of 0 abc_final = [] ∧
  length (listeners_of 0 queued_state) = 1.
Proof.
  destruct (one_listener_while_queue_nonempty abc_inputs abc_final 0) as [H _].
  - repeat constructor.
  - vm_compute. reflexivity.
  - split; [|split; vm_compute; reflexivity].
    rewrite H. vm_compute. reflexivity.
Defined.

Lemma after_callback_plain_called h cb rest s :
  submits_nothing cb = true →
  called (h_sb h) (trace (after_callback h cb rest s))
  = called (h_sb h) (trace s) ++ [cb].
Proof.
  intros Hcb. unfold after_callback.
  set (s1 := log _ (set_queue (h_sb h) rest s)).
  destruct (invoke_submits_nothing cb s1 Hcb) as (_ & _ & Ht).
  assert (called (h_sb h) (trace (invoke cb s1))
          = called (h_sb h) (trace s) ++ [cb]) as Hc.
  { rewrite Ht. simpl. rewrite called_snoc. by rewrite bool_decide_eq_true_2. }
  destruct (negb _); [|done].
  destruct (h_onWarning h); simpl; [done|].
  by rewrite called_snoc, app_nil_r.
Qed.

(** A pass on a queue of callbacks that submit nothing calls a non-empty
    front part of the queue, in order, and leaves the rest. *)
Lemma drain_loop_plain_progress fuel h s s' cb rest :
  Forall (λ o, submits_nothing o = true) (cb :: rest) →
  queueMap s !! h_sb h = Some (cb :: rest) →
  drain_loop fuel h s = Some s' →
  ∃ front back, cb :: rest = front ++ back ∧ front ≠ [] ∧
    queue_of (h_sb h) s' = back ∧
    called (h_sb h) (trace s') = called (h_sb h) (trace s) ++ front.
Proof.
  revert s cb rest. induction fuel as [|fuel IH]; intros s cb rest HF Hq; [done|].
  rewrite (drain_loop_S _ _ _ _ _ Hq). cbv zeta.
  apply Forall_cons in HF as [Hcb Hrest].
  destruct (after_callback_plain h cb rest s Hcb) as (Hq3 & Hl3 & _).
  pose proof (after_callback_plain_called h cb rest s Hcb) as Hc3.
  set (s3 := after_callback h cb rest s) in *.
  assert (queueMap s3 !! h_sb h = Some rest) as Hlk
    by (rewrite Hq3; by rewrite lookup_insert_eq).
  rewrite Hlk. destruct rest as [|c q].
  - intros [= <-]. exists [cb], []. split; [done|]. split; [done|]. split.
    + unfold queue_of. simpl. by rewrite Hlk.
    + simpl. by rewrite called_snoc, app_nil_r.
  - destruct (negb _).
    + intros H. apply (IH s3 c q Hrest Hlk) in H
        as (front & back & Hsplit & _ & Hback & Hcalled).
      exists (cb :: front), back. split; [by rewrite Hsplit|].
      split; [done|]. split; [done|].
      by rewrite Hcalled, Hc3, <-(assoc_L (++)).
    + intros [= <-]. exists [cb], (c :: q). split; [done|]. split; [done|].
      split; [by apply queue_of_Some | done].
Qed.

(** One round: the buffer becomes free and 'updateend' is fired. *)
Lemma free_round_plain sb s :
  subscription_inv s → no_type_error s → listeners_ok s →
  ∃ s' front back,
    run [External sb false; UpdateEnd sb] s = Some s' ∧
    queue_of sb s = front ++ back ∧ (queue_of sb s ≠ [] → front ≠ []) ∧
    queue_of sb s' = back ∧
    called sb (trace s') = called sb (trace s) ++ front ∧
    subscription_inv s' ∧ no_type_error s' ∧ listeners_ok s'.
Proof.
  intros Hs Hte Hok. set (s0 := set_updating sb false s).
  assert (subscription_inv s0 ∧ no_type_error s0) as [Hs0 Hte0].
  { by apply (step_plain (External sb false) s). }
  assert (listeners_ok s0) as Hok0.
  { eapply steps_listeners_ok; [apply rtc_once, at_cb, at_set | done]. }
  destruct (step_total (UpdateEnd sb) s0 Hok0) as [s' Hs'].
  assert (subscription_inv s' ∧ no_type_error s') as [Hs1 Hte1].
  { by apply (step_plain (UpdateEnd sb) s0). }
  assert (listeners_ok s') as Hok1.
  { eapply steps_listeners_ok; [by eapply step_steps | done]. }
  exists s'. simpl. fold s0. simpl in Hs'. rewrite Hs'. simpl.
  destruct (Hs0 sb) as [HF [[Hq Hl]|[Hne (h & Hl & Hsb)]]].
  - rewrite Hl in Hs'. simpl in Hs'. injection Hs' as <-.
    exists [], []. change (queue_of sb s) with (queue_of sb s0).
    rewrite Hq, !app_nil_r. done.
  - subst sb. rewrite Hl in Hs'. simpl in Hs'.
    assert (subscribed h s0 = true) as Hsub.
    { apply subscribed_spec. exists h. rewrite Hl.
      split; [by apply list_elem_of_singleton | done]. }
    rewrite Hsub in Hs'.
    destruct (onSourceBufferReadyAndQueueNotEmpty h s0) as [s1|] eqn:H1;
      simpl in Hs'; [|done]. injection Hs' as <-.
    rewrite handler_free in H1
      by (unfold s0; by rewrite is_updating_set, decide_True).
    destruct (queueMap s0 !! h_sb h) as [[|cb rest]|] eqn:Hq;
      try (by rewrite queue_of_nil in Hne; intuition).
    rewrite (queue_of_Some _ _ _ Hq) in HF.
    destruct (drain_loop_plain_progress _ _ _ _ _ _ HF Hq H1)
      as (front & back & Hsplit & Hfront & Hback & Hcalled).
    exists front, back. change (queue_of (h_sb h) s) with (queue_of (h_sb h) s0).
    rewrite (queue_of_Some _ _ _ Hq). done.
Qed.

(** X6: when no callback calls [execWhenSourceBufferReady] itself, the
    callbacks queued for a buffer are all called, in order, once the buffer
    has become free and 'updateend' has been fired as many times as there are
    callbacks in the queue; the queue is then empty and the listener removed. *)
Theorem queued_callbacks_run_while_buffer_keeps_becoming_free ins s sb n :
  Forall plain_input ins → run ins init = Some s →
  length (queue_of sb s) ≤ n →
  ∃ s', run (free_rounds sb n) s = Some s' ∧
        queue_of sb s' = [] ∧ listeners_of sb s' = [] ∧
        called sb (trace s') = called sb (trace s) ++ queue_of sb s.
Proof.
  intros Hins Hrun.
  destruct (subscription_inv_of_plain_runs ins s Hins Hrun) as [Hs Hte].
  assert (listeners_ok s) as Hok.
  { eapply steps_listeners_ok; [by eapply run_steps | apply listeners_ok_init]. }
  clear Hins Hrun. revert s Hs Hte Hok.
  induction n as [|n IH]; intros s Hs Hte Hok Hlen.
  - exists s. split; [done|]. destruct (queue_of sb s) eqn:Hq; [|simpl in Hlen; lia].
    rewrite app_nil_r. split; [done|]. split; [|done].
    destruct (Hs sb) as [_ [[_ Hl]|[Hne _]]]; [done | congruence].
  - destruct (free_round_plain sb s Hs Hte Hok)
      as (s1 & front & back & Hrun1 & Hsplit & Hfront & Hback & Hcalled
          & Hs1 & Hte1 & Hok1).
    destruct (IH s1 Hs1 Hte1 Hok1) as (s' & Hrun' & Hq' & Hl' & Hcalled').
    { rewrite Hback. rewrite Hsplit, length_app in Hlen.
      destruct front; [|simpl in Hlen; lia].
      destruct (queue_of sb s) eqn:Hq; [by simplify_eq/=; lia|].
      by destruct Hfront. }
    exists s'. split.
    { change (free_rounds sb (S n))
        with ([External sb false; UpdateEnd sb] ++ free_rounds sb n).
      rewrite run_app, Hrun1. done. }
    split; [done|]. split; [done|].
    by rewrite Hcalled', Hcalled, Hback, Hsplit, <-(assoc_L (++)).
Qed.

Lemma queued_callbacks_run_while_buffer_keeps_becoming_free_witness :
  ∃ s', run (free_rounds 0 2) queued_state = Some s' ∧
        queue_of 0 s' = [] ∧ listeners_of 0 s' = [] ∧
        called 0 (trace s') = called 0 (trace queued_state) ++ [opA; opB].
Proof.
  apply (queued_callbacks_run_while_buffer_keeps_becoming_free
           [External 0 true; Submit 0 opA Omitted; Submit 0 opB Null]
           queued_state 0 2).
  - repeat constructor.
  - vm_compute. reflexivity.
  - vm_compute. lia.
Defined.

(** ** Buffers do not interfere *)

Lemma untouched_log sb s0 e s :
  event_about sb e = false → untouched sb s0 s → untouched sb s0 (log e s).
Proof.
  intros He [Hu Hq Hl Hs Hc Ho]. split; try done.
  - simpl. rewrite submitted_snoc, <-Hs.
    destruct e; simpl in *; rewrite ?He, ?app_nil_r; done.
  - simpl. rewrite called_snoc, <-Hc.
    destruct e; simpl in *; rewrite ?He, ?app_nil_r; done.
Qed.

Lemma untouched_set_updating sb s0 sb' b s :
  sb' ≠ sb → untouched sb s0 s → untouched sb s0 (set_updating sb' b s).
Proof.
  intros Hne [Hu Hq Hl Hs Hc Ho]. split; try done.
  by rewrite is_updating_set, decide_False.
Qed.

Lemma untouched_set_queue sb s0 sb' q s :
  sb' ≠ sb → Forall (λ o, touches sb o = false) q →
  untouched sb s0 s → untouched sb s0 (set_queue sb' q s).
Proof.
  intros Hne HF [Hu Hq Hl Hs Hc Ho]. split; try done.
  - simpl. by rewrite lookup_insert_ne.
  - intros sb'' Hsb''. rewrite queue_of_set_queue. case_decide; [done|].
    by apply Ho.
Qed.

Lemma untouched_add sb s0 sb' w s :
  sb' ≠ sb → untouched sb s0 s → untouched sb s0 (addEventListener sb' w s).
Proof.
  intros Hne [Hu Hq Hl Hs Hc Ho]. split; try done.
  - simpl. by rewrite lookup_insert_ne.
  - simpl. by rewrite submitted_snoc, app_nil_r.
  - simpl. by rewrite called_snoc, app_nil_r.
Qed.

Lemma untouched_remove sb s0 sb' h s :
  sb' ≠ sb → untouched sb s0 s → untouched sb s0 (removeEventListener sb' h s).
Proof.
  intros Hne [Hu Hq Hl Hs Hc Ho]. split; try done.
  - simpl. by rewrite lookup_insert_ne.
  - simpl. by rewrite submitted_snoc, app_nil_r.
  - simpl. by rewrite called_snoc, app_nil_r.
Qed.

Lemma untouched_optional_call sb s0 w msg s :
  untouched sb s0 s → untouched sb s0 (optional_call w msg s).
Proof. destruct w; [done|]. by apply untouched_log. Qed.

Lemma invoke_untouched sb s0 o s :
  touches sb o = false → untouched sb s0 s → untouched sb s0 (invoke o s).
Proof.
  revert s.
  induction o using op_stmt_ind
    with (Q := λ a, ∀ s, stmt_touches sb a = false →
                         untouched sb s0 s → untouched sb s0 (run_stmt a s));
    intros s Ht Hs.
  - rewrite invoke_Op. simpl in Ht. revert s Hs.
    induction H as [|a body Ha _ IH]; intros s Hs; simpl; [done|].
    simpl in Ht. apply orb_false_iff in Ht as [Ht1 Ht2]. auto.
  - simpl in *. apply bool_decide_eq_false in Ht.
    by apply untouched_set_updating.
  - simpl in Ht. apply orb_false_iff in Ht as [Hne%bool_decide_eq_false Ht].
    simpl. destruct (queue_cases sb0 s) as [(c & q & Hq)|Hq].
    + rewrite (exec_with_push _ _ _ _ _ _ _ Hq).
      apply untouched_set_queue; [done| |].
      * apply Forall_app. split; [|by apply Forall_singleton].
        rewrite <-(queue_of_Some _ _ _ Hq). by apply (ut_others _ _ _ Hs).
      * apply untouched_log; [|done]. simpl. by apply bool_decide_eq_false.
    + destruct (is_updating sb0 s) eqn:Hu.
      * rewrite exec_with_defer by done.
        apply untouched_add; [done|].
        apply untouched_set_queue; [done | by apply Forall_singleton |].
        apply untouched_log; [|done]. simpl. by apply bool_decide_eq_false.
      * rewrite exec_with_now by done. apply IHo; [done|].
        apply untouched_log; [simpl; by apply bool_decide_eq_false|].
        apply untouched_log; [simpl; by apply bool_decide_eq_false|done].
Qed.

Lemma exec_untouched sb s0 sb' cb w s :
  sb' ≠ sb → touches sb cb = false → untouched sb s0 s →
  untouched sb s0 (execWhenSourceBufferReady sb' cb w s).
Proof.
  intros Hne Ht. apply (invoke_untouched sb s0 (Op 0 [Exec sb' cb w])).
  simpl. rewrite Ht. by rewrite bool_decide_eq_false_2.
Qed.

Lemma drain_loop_untouched sb s0 fuel h s s' :
  h_sb h ≠ sb → untouched sb s0 s →
  drain_loop fuel h s = Some s' → untouched sb s0 s'.
Proof.
  intros Hne. revert s. induction fuel as [|fuel IH]; intros s Hs; [done|].
  destruct (queueMap s !! h_sb h) as [[|cb rest]|] eqn:Hq.
  - rewrite drain_loop_empty by done. intros [= <-]. by apply untouched_log.
  - rewrite (drain_loop_S _ _ _ _ _ Hq). cbv zeta.
    pose proof (ut_others _ _ _ Hs (h_sb h) Hne) as HF.
    rewrite (queue_of_Some _ _ _ Hq) in HF.
    apply Forall_cons in HF as [Hcb Hrest].
    assert (untouched sb s0 (after_callback h cb rest s)) as Hs3.
    { unfold after_callback.
      assert (untouched sb s0
                (invoke cb (log (EvCall (h_sb h) cb)
                              (set_queue (h_sb h) rest s)))) as Hs2.
      { apply invoke_untouched; [done|].
        apply untouched_log; [simpl; by apply bool_decide_eq_false|].
        by apply untouched_set_queue. }
      destruct (negb _); [by apply untouched_optional_call | done]. }
    destruct (queueMap (after_callback h cb rest s) !! h_sb h)
      as [[|c q]|]; [|destruct (negb _)|done].
    + intros [= <-]. by apply untouched_remove.
    + by apply IH.
    + by intros [= <-].
  - simpl. by rewrite Hq.
Qed.

Lemma handler_untouched sb s0 h s s' :
  h_sb h ≠ sb → untouched sb s0 s →
  onSourceBufferReadyAndQueueNotEmpty h s = Some s' → untouched sb s0 s'.
Proof.
  intros Hne Hs. unfold onSourceBufferReadyAndQueueNotEmpty.
  destruct (is_updating _ _).
  - intros [= <-]. by apply untouched_optional_call.
  - by apply drain_loop_untouched.
Qed.

Lemma dispatch_untouched sb s0 hs s s' :
  Forall (λ h, h_sb h ≠ sb) hs → untouched sb s0 s →
  dispatch hs s = Some s' → untouched sb s0 s'.
Proof.
  intros Hhs. revert s. induction Hhs as [|h hs Hh _ IH]; intros s Hs; simpl.
  - by intros [= <-].
  - destruct (subscribed h s); [|by apply IH].
    destruct (onSourceBufferReadyAndQueueNotEmpty h s) as [s1|] eqn:H1;
      simpl; [|done].
    apply IH. by eapply handler_untouched.
Qed.

Lemma step_untouched sb s0 i s s' :
  listeners_ok s → input_touches sb i = false → untouched sb s0 s →
  step i s = Some s' → untouched sb s0 s'.
Proof.
  intros Hok Hi Hs. destruct i as [sb' cb w|sb'|sb' b]; simpl in *.
  - apply orb_false_iff in Hi as [Hne%bool_decide_eq_false Ht].
    intros [= <-]. by apply exec_untouched.
  - apply bool_decide_eq_false in Hi. apply dispatch_untouched; [|done].
    apply Forall_forall. intros h Hin. by destruct (Hok sb' h Hin) as [-> _].
  - apply bool_decide_eq_false in Hi. intros [= <-].
    by apply untouched_set_updating.
Qed.

(** X7: the buffers are independent.  Inputs that are about other buffers,
    with callbacks that do not touch buffer [sb], leave [updating], the
    queue and the listeners of [sb] as they are, and neither submit nor call
    anything for [sb]. *)
Theorem other_buffers_do_not_interfere ins0 s ins s' sb :
  run ins0 init = Some s → others_avoid sb s →
  Forall (λ i, input_touches sb i = false) ins →
  run ins s = Some s' →
  is_updating sb s' = is_updating sb s ∧
  queueMap s' !! sb = queueMap s !! sb ∧
  listeners_of sb s' = listeners_of sb s ∧
  submitted sb (trace s') = submitted sb (trace s) ∧
  called sb (trace s') = called sb (trace s).
Proof.
  intros Hrun0 Havoid Hins Hrun.
  assert (listeners_ok s) as Hok.
  { eapply steps_listeners_ok; [by eapply run_steps | apply listeners_ok_init]. }
  assert (untouched sb s s) as Hs by (by split).
  enough (untouched sb s s') as [Hu Hq Hl Hsub Hc _].
  { unfold listeners_of. by rewrite Hl. }
  clear Hrun0 Havoid. revert Hok Hs Hrun. generalize s at 1 3 4 as s1.
  induction Hins as [|i ins Hi _ IH]; intros s1 Hok Hs; simpl.
  - by intros [= <-].
  - destruct (step i s1) as [s2|] eqn:H2; simpl; [|done].
    apply IH.
    + eapply steps_listeners_ok; [by eapply step_steps | done].
    + by eapply step_untouched.
Qed.

Lemma other_buffers_do_not_interfere_witness :
  ∃ s', run buffer_1_inputs queued_state = Some s' ∧
        called 1 (trace s') = [opD; opD] ∧
        is_updating 0 s' = true ∧ queue_of 0 s' = [opA; opB] ∧
        called 0 (trace s') = called 0 (trace queued_state).
Proof.
  destruct (run_total ([External 0 true; Submit 0 opA Omitted;
                        Submit 0 opB Null] ++ buffer_1_inputs)) as [s' Hs'].
  rewrite run_app in Hs'.
  assert (run [External 0 true; Submit 0 opA Omitted; Submit 0 opB Null] init
          = Some queued_state) as Hrun0 by (vm_compute; reflexivity).
  rewrite Hrun0 in Hs'. simpl in Hs'.
  exists s'. split; [exact Hs'|].
  split; [injection Hs' as <-; vm_compute; reflexivity|].
  destruct (other_buffers_do_not_interfere _ queued_state buffer_1_inputs s' 0
              Hrun0) as (Hu & Hq & _ & _ & Hc).
  - intros sb' Hne. unfold queue_of.
    replace (queueMap queued_state) with ({[0 := [opA; opB]]} : gmap nat (list op))
      by (vm_compute; reflexivity).
    rewrite lookup_singleton_ne by done. constructor.
  - repeat constructor.
  - exact Hs'.
  - rewrite Hu. unfold queue_of. rewrite Hq. split; [vm_compute; reflexivity|].
    split; [vm_compute; reflexivity | exact Hc].
Defined.
